(** * moresweeper: the tile state machine and its traversal algorithms

    A shallow embedding of [src/backend/tile.py].  Python objects live in a
    store indexed by object identity; a [Tile] record holds the attributes
    of one object, and the methods that reach other tiles through
    [self.neighbours] are functions on the whole store. *)

From stdpp Require Import gmap.

Local Open Scope Z_scope.

(** ** Data model *)

(** A reference is the identity of a Python object. *)
Definition ref := nat.

(** The attributes assigned in [Tile.__init__].  [neighbours] is the
    Python set listed in its iteration order, which is stable because no
    method adds to or removes from the set after [set_neighbours]. *)
Record Tile := mkTile {
  x : Z;
  y : Z;
  value : Z;
  flagged : bool;
  covered : bool;
  down : bool;
  status : Z;
  neighbours : list ref;
  neighbour_flags : Z
}.

(** The store of all tile objects. *)
Abbreviation Board := (gmap ref Tile).

(** Class constants of [Tile]. *)
Definition MINE : Z := -1.
Definition BLAST : Z := -2.
Definition WRONGFLAG : Z := -3.
Definition UNFLAGGED : Z := -4.
Definition COVERED : Z := 9.
Definition DOWN : Z := 10.
Definition FLAGGED : Z := 11.

(** Attribute assignments [self.f = v]. *)
Definition set_value (v : Z) (t : Tile) : Tile :=
  mkTile (x t) (y t) v (flagged t) (covered t) (down t) (status t)
         (neighbours t) (neighbour_flags t).
Definition set_flagged (b : bool) (t : Tile) : Tile :=
  mkTile (x t) (y t) (value t) b (covered t) (down t) (status t)
         (neighbours t) (neighbour_flags t).
Definition set_covered (b : bool) (t : Tile) : Tile :=
  mkTile (x t) (y t) (value t) (flagged t) b (down t) (status t)
         (neighbours t) (neighbour_flags t).
Definition set_down (b : bool) (t : Tile) : Tile :=
  mkTile (x t) (y t) (value t) (flagged t) (covered t) b (status t)
         (neighbours t) (neighbour_flags t).
Definition set_status (c : Z) (t : Tile) : Tile :=
  mkTile (x t) (y t) (value t) (flagged t) (covered t) (down t) c
         (neighbours t) (neighbour_flags t).
Definition set_neighbour_flags (n : Z) (t : Tile) : Tile :=
  mkTile (x t) (y t) (value t) (flagged t) (covered t) (down t) (status t)
         (neighbours t) n.

(** ** Methods that touch only [self] *)

(** [Tile.__init__] *)
Definition new_tile (cx cy : Z) : Tile :=
  mkTile cx cy 0 false true false COVERED [] 0.

Definition get_coordinate (t : Tile) : Z * Z := (x t, y t).

(** [get_status] returns the stored attribute. *)
Definition get_status (t : Tile) : Z := status t.

Definition is_mine (t : Tile) : bool := value t =? MINE.

Definition get_neighbours (t : Tile) : list ref := neighbours t.

(** [set_neighbours] stores [set(neighbours)]: duplicates collapse. *)
Definition set_neighbours (ns : list ref) (t : Tile) : Tile :=
  mkTile (x t) (y t) (value t) (flagged t) (covered t) (down t) (status t)
         (remove_dups ns) (neighbour_flags t).

Definition recover (t : Tile) : Tile :=
  set_neighbour_flags 0
    (set_status COVERED (set_down false (set_covered true (set_flagged false t)))).

(** The code that [update] stores, as a function of the other attributes. *)
Definition display_code (t : Tile) : Z :=
  if flagged t then FLAGGED
  else if down t then DOWN
  else if covered t then COVERED
  else value t.

Definition update (t : Tile) : Tile := set_status (display_code t) t.

Definition update_finish (t : Tile) : Tile :=
  let t1 := update t in
  if negb (flagged t1) && is_mine t1 then set_status UNFLAGGED t1 else t1.

Definition update_blast (t : Tile) : Tile :=
  let t1 := update t in
  if flagged t1 && negb (is_mine t1) then set_status WRONGFLAG t1
  else if negb (covered t1) && is_mine t1 then set_status BLAST t1
  else if negb (flagged t1) && is_mine t1 then set_status MINE t1
  else t1.

Definition left_hold (t : Tile) : Tile :=
  if covered t && negb (flagged t) then set_down true t else t.

Definition unhold (t : Tile) : Tile :=
  if negb (flagged t) then set_down false t else t.

(** [t.neighbour_flags += k] *)
Definition bump (k : Z) (t : Tile) : Tile :=
  set_neighbour_flags (neighbour_flags t + k) t.

(** [t.value += 1] unless [t] is a mine, the body of the loop of [set_mine]. *)
Definition count_mine (t : Tile) : Tile :=
  if negb (is_mine t) then set_value (value t + 1) t else t.

(** ** Methods that reach other tiles

    A method call [r.m()] on the object [r] rewrites the store at [r]
    with [alter].  Every reference held by a Python object denotes a live
    object; a reference outside the store has no counterpart in the
    program and is left inert. *)

(** [for t in l: t.m()] *)
Definition for_each (f : Tile → Tile) (l : list ref) (s : Board) : Board :=
  foldl (λ acc r, alter f r acc) s l.

Definition set_mine (s : Board) (r : ref) : Board :=
  match s !! r with
  | None => s
  | Some t => for_each count_mine (neighbours t) (alter (set_value MINE) r s)
  end.

Definition double_hold (s : Board) (r : ref) : Board :=
  match s !! r with
  | None => s
  | Some t => for_each left_hold (neighbours t) (alter left_hold r s)
  end.

(** [basic_open] returns the pair (effective, tiles to search next). *)
Definition spreads (BFS : bool) (t : Tile) : bool :=
  (value t =? 0) || (BFS && (value t =? neighbour_flags t)).

Definition blocked (t : Tile) : bool := flagged t || negb (covered t).

Definition basic_open (BFS : bool) (s : Board) (r : ref)
  : Board * bool * list ref :=
  match s !! r with
  | None => (s, false, [])
  | Some t =>
      if blocked t then (s, false, [])
      else
        let s' := alter (set_covered false) r s in
        if spreads BFS t then (s', true, neighbours t) else (s', true, [])
  end.

(** The [while not search.empty()] loop of [open].  [search] is the FIFO
    queue, [changed] the accumulated set; one unit of fuel pays for one
    [search.get()]. *)
Fixpoint open_loop (fuel : nat) (BFS : bool) (s : Board)
    (search : list ref) (changed : gset ref) : option (Board * gset ref) :=
  match search with
  | [] => Some (s, changed)
  | t :: rest =>
      match fuel with
      | O => None
      | S fuel' =>
          let '(s', eff, to_search) := basic_open BFS s t in
          open_loop fuel' BFS s' (rest ++ to_search)
                    (if eff then changed ∪ {[t]} else changed)
      end
  end.

(** Work still ahead of the loop: a tile that can still be opened costs
    its own dequeue plus one dequeue per neighbour it may enqueue. *)
Definition weight (t : Tile) : nat :=
  if blocked t then O else S (length (neighbours t)).

Definition pending (s : Board) : nat :=
  map_fold (λ _ t acc, (weight t + acc)%nat) O s.

Definition work (s : Board) (search : list ref) : nat :=
  (length search + pending s)%nat.

(** What a call leaves behind: a returned set, a raised exception, or a
    loop that is still running when the fuel is gone. *)
Inductive exn := TypeError.

Inductive result :=
  | Ret (s : Board) (v : gset ref)
  | Exn (s : Board) (e : exn)
  | Diverge.

Definition final_state (o : result) : option Board :=
  match o with
  | Ret s _ => Some s
  | Exn s _ => Some s
  | Diverge => None
  end.

(** [open]: [searched] is created empty and never added to (the only
    statement that would is commented out in the source). *)
Definition open (BFS test_op : bool) (s : Board) (r : ref) : result :=
  let searched : gset ref := ∅ in
  match open_loop (work s [r]) BFS s [r] ∅ with
  | Some (s', changed) => Ret s' (if negb test_op then changed else searched)
  | None => Diverge
  end.

(** The generator [(t.open(BFS) for t in self.neighbours)], drained from
    left to right by the argument unpacking of [set.union]. *)
Fixpoint open_each (BFS : bool) (s : Board) (l : list ref)
  : option (Board * list (gset ref)) :=
  match l with
  | [] => Some (s, [])
  | t :: l' =>
      match open BFS false s t with
      | Ret s1 c =>
          match open_each BFS s1 l' with
          | Some (s2, cs) => Some (s2, c :: cs)
          | None => None
          end
      | _ => None
      end
  end.

(** [set.union] applied to the unpacked results: the unbound method needs
    its receiver, so an empty argument tuple raises [TypeError]. *)
Definition set_union (args : list (gset ref)) : exn + gset ref :=
  match args with
  | [] => inl TypeError
  | c :: cs => inr (foldl (∪) c cs)
  end.

Definition chord_ready (t : Tile) : bool :=
  negb (covered t) && (value t =? neighbour_flags t).

Definition double (BFS : bool) (s : Board) (r : ref) : result :=
  match s !! r with
  | None => Ret s ∅
  | Some t =>
      if chord_ready t then
        match open_each BFS s (neighbours t) with
        | None => Diverge
        | Some (s', args) =>
            match set_union args with
            | inl e => Exn s' e
            | inr v => Ret s' v
            end
        end
      else Ret s ∅
  end.

Definition tile_covered (s : Board) (r : ref) : bool :=
  match s !! r with Some t => covered t | None => false end.

Definition tile_flagged (s : Board) (r : ref) : bool :=
  match s !! r with Some t => flagged t | None => false end.

(** The body of the outer loop of the easy-flag branch:
    [t.flagged = True; for tt in t.get_neighbours(): tt.neighbour_flags += 1]. *)
Definition plant_flag (s : Board) (r : ref) : Board :=
  match s !! r with
  | None => s
  | Some t => for_each (bump 1) (get_neighbours t) (alter (set_flagged true) r s)
  end.

(** [flag].  [covered_neighbours] and [unflagged_neighbours] are computed
    on entry; the easy-flag loop runs over [covered_neighbours], here in
    the order of [self.neighbours] (any other order leaves the same store,
    [plant_flags_permutation]). *)
Definition flag (easy_flag : bool) (s : Board) (r : ref) : Board * gset ref :=
  match s !! r with
  | None => (s, ∅)
  | Some t =>
      if flagged t then
        (for_each (bump (-1)) (neighbours t) (alter (set_flagged false) r s),
         {[r]})
      else if covered t then
        (for_each (bump 1) (neighbours t) (alter (set_flagged true) r s),
         {[r]})
      else if easy_flag then
        let covered_neighbours := List.filter (tile_covered s) (neighbours t) in
        let unflagged_neighbours :=
          List.filter (λ n, tile_covered s n && negb (tile_flagged s n))
                      (neighbours t) in
        if value t =? Z.of_nat (length covered_neighbours) then
          (foldl plant_flag s covered_neighbours,
           list_to_set unflagged_neighbours)
        else (s, ∅)
      else (s, ∅)
  end.

(** ** Core operations as data, for statements about any operation and
    any sequence of operations *)

Inductive op :=
  | OpOpen (BFS test_op : bool) (r : ref)
  | OpFlag (easy_flag : bool) (r : ref)
  | OpDouble (BFS : bool) (r : ref)
  | OpLeftHold (r : ref)
  | OpDoubleHold (r : ref)
  | OpUnhold (r : ref).

Arguments OpOpen BFS test_op r%_nat.
Arguments OpFlag easy_flag r%_nat.
Arguments OpDouble BFS r%_nat.
Arguments OpLeftHold r%_nat.
Arguments OpDoubleHold r%_nat.
Arguments OpUnhold r%_nat.

Definition run_op (o : op) (s : Board) : result :=
  match o with
  | OpOpen BFS test_op r => open BFS test_op s r
  | OpFlag easy_flag r => let '(s', v) := flag easy_flag s r in Ret s' v
  | OpDouble BFS r => double BFS s r
  | OpLeftHold r => Ret (alter left_hold r s) ∅
  | OpDoubleHold r => Ret (double_hold s r) ∅
  | OpUnhold r => Ret (alter unhold r s) ∅
  end.

Arguments basic_open BFS s r%_nat.
Arguments open BFS test_op s r%_nat.
Arguments double BFS s r%_nat.
Arguments flag easy_flag s r%_nat.
Arguments double_hold s r%_nat.
Arguments set_mine s r%_nat.

(** A session: each operation starts from the store the previous one left. *)
Fixpoint run_ops (os : list op) (s : Board) : option Board :=
  match os with
  | [] => Some s
  | o :: os' =>
      match final_state (run_op o s) with
      | Some s' => run_ops os' s'
      | None => None
      end
  end.

(** ** Sample boards

    Board construction is outside the tile class; these are rectangular
    grids wired the usual way (up to eight adjacent cells), with the tile
    at column [cx], row [cy] stored under reference [cy * w + cx]. *)

Definition grid_ref (w cx cy : nat) : ref := (cy * w + cx)%nat.

Definition adjacent (w h cx cy : nat) : list ref :=
  c ← seq 0 w;
  r ← seq 0 h;
  if bool_decide ((c, r) ≠ (cx, cy)
                  ∧ (c ≤ cx + 1 ∧ cx ≤ c + 1 ∧ r ≤ cy + 1 ∧ cy ≤ r + 1)%nat)
  then [grid_ref w c r] else [].

Definition grid (w h : nat) : Board :=
  list_to_map
    (cx ← seq 0 w;
     cy ← seq 0 h;
     [(grid_ref w cx cy,
       set_neighbours (adjacent w h cx cy)
                      (new_tile (Z.of_nat cx) (Z.of_nat cy)))]).

Definition lay_mines (rs : list ref) (s : Board) : Board := foldl set_mine s rs.

Definition board5 : Board := grid 5 5.
Definition board3 : Board := lay_mines [grid_ref 3 1 1] (grid 3 3).

(** One mine next to one numbered tile, and a board of a single tile. *)
Definition board2 : Board := lay_mines [grid_ref 2 1 0] (grid 2 1).
Definition board1 : Board := grid 1 1.

(** ** Specification vocabulary *)

(** Equality and hashing.  [Tile] defines neither [__eq__] nor [__hash__],
    so sets of tiles use the ones inherited from [object]: two tiles are
    equal when they are the same object, and the hash is a function of
    the identity. *)
Definition tile_eq (a b : ref) : bool := bool_decide (a = b).
Definition tile_hash (a : ref) : nat := a.

Arguments tile_eq (a b)%_nat.
Arguments tile_hash a%_nat.

Definition one_tile_per_coordinate (s : Board) : Prop :=
  NoDup ((λ p, get_coordinate p.2) <$> map_to_list s).

(** The neighbour relation as board construction leaves it: each set is
    duplicate free, and [n] is a neighbour of [r] only if [n] is a tile
    that has [r] among its own neighbours. *)
Definition linked (s : Board) (r n : ref) : bool :=
  match s !! n with
  | Some tn => bool_decide (r ∈ neighbours tn)
  | None => false
  end.

Definition wired (s : Board) : Prop :=
  map_Forall (λ r t, NoDup (neighbours t)
                     ∧ Forall (λ n, linked s r n = true) (neighbours t)) s.

(** The counter invariant: [neighbour_flags] is the number of flagged
    neighbours. *)
Definition flagged_neighbours (s : Board) (t : Tile) : list ref :=
  List.filter (tile_flagged s) (neighbours t).

Definition flags_consistent (s : Board) : Prop :=
  map_Forall (λ _ t, neighbour_flags t
                     = Z.of_nat (length (flagged_neighbours s t))) s.

(** [s] with every tile of [ch] uncovered and nothing else touched. *)
Definition opened (ch : gset ref) (s : Board) : Board :=
  map_imap (λ r t, Some (if bool_decide (r ∈ ch) then set_covered false t else t)) s.

(** A relation between the old and the new attributes of each object. *)
Definition tilewise (P : Tile → Tile → Prop) (s s' : Board) : Prop :=
  ∀ r, option_Forall2 P (s !! r) (s' !! r).

(** All attributes other than [covered] agree. *)
Definition same_but_covered (t t' : Tile) : Prop :=
  x t' = x t ∧ y t' = y t ∧ value t' = value t ∧ flagged t' = flagged t
  ∧ down t' = down t ∧ status t' = status t
  ∧ neighbours t' = neighbours t ∧ neighbour_flags t' = neighbour_flags t.

(** The attribute writes that the core operations perform. *)
Inductive core_write : (Tile → Tile) → Prop :=
  | write_open : core_write (set_covered false)
  | write_flag b : core_write (set_flagged b)
  | write_bump k : core_write (bump k)
  | write_left_hold : core_write left_hold
  | write_unhold : core_write unhold.

(** A tile that [basic_open] would open. *)
Definition tile_openable (s : Board) (r : ref) : bool :=
  match s !! r with Some t => negb (blocked t) | None => false end.

(** The tiles the flood fill is due to open from the seed [r0]: the seed,
    and every openable neighbour of a reached tile that spreads. *)
Inductive reach (BFS : bool) (s : Board) (r0 : ref) : ref → Prop :=
  | reach_seed :
      tile_openable s r0 = true → reach BFS s r0 r0
  | reach_next r t r' :
      reach BFS s r0 r → s !! r = Some t → spreads BFS t = true →
      r' ∈ neighbours t → tile_openable s r' = true →
      reach BFS s r0 r'.

(** The connected region of 0-valued tiles around a 0-valued seed, and
    the non-zero tiles adjacent to it. *)
Inductive zero_region (s : Board) (r0 : ref) : ref → Prop :=
  | zero_seed t0 :
      s !! r0 = Some t0 → value t0 = 0 → zero_region s r0 r0
  | zero_next r t r' t' :
      zero_region s r0 r → s !! r = Some t → r' ∈ neighbours t →
      s !! r' = Some t' → value t' = 0 →
      zero_region s r0 r'.

Definition numbered_border (s : Board) (r0 r' : ref) : Prop :=
  ∃ r t t', zero_region s r0 r ∧ s !! r = Some t ∧ r' ∈ neighbours t
            ∧ s !! r' = Some t' ∧ value t' ≠ 0.

Arguments reach BFS s (r0 _)%_nat.
Arguments zero_region s (r0 _)%_nat.
Arguments numbered_border s (r0 r')%_nat.
Arguments tile_openable s r%_nat.
Arguments tile_covered s r%_nat.
Arguments tile_flagged s r%_nat.

Definition fresh (s : Board) : Prop :=
  map_Forall (λ _ t, blocked t = false) s.

(** The loop invariant of the flood fill started at [r0] on the board
    [s0]: what is in [changed] was due, what is queued is due if it can
    still be opened, and whatever is due next to a tile of [changed] is
    in [changed] or queued. *)
Definition flood_inv (BFS : bool) (s0 : Board) (r0 : ref)
    (search : list ref) (changed : gset ref) : Prop :=
  (∀ r, r ∈ changed → reach BFS s0 r0 r)
  ∧ (∀ r, r ∈ search → tile_openable s0 r = true → reach BFS s0 r0 r)
  ∧ (∀ r t r', r ∈ changed → s0 !! r = Some t → spreads BFS t = true →
       r' ∈ neighbours t → tile_openable s0 r' = true →
       r' ∈ changed ∨ r' ∈ search)
  ∧ (tile_openable s0 r0 = true → r0 ∈ changed ∨ r0 ∈ search).

(** Relations between the old and the new attributes of a tile. *)
Definition stays_open (t t' : Tile) : Prop :=
  covered t = false → covered t' = false.

Definition same_status (t t' : Tile) : Prop := status t' = status t.

(** Flags, counters and wiring are as before. *)
Definition same_flags (t t' : Tile) : Prop :=
  flagged t' = flagged t ∧ neighbour_flags t' = neighbour_flags t
  ∧ neighbours t' = neighbours t.

(** Two distinct tile objects built with the same coordinates. *)
Definition twins : Board :=
  {[ 0%nat := new_tile 0 0; 1%nat := new_tile 0 0 ]}.

(** The wiring is as before. *)
Definition same_wiring (t t' : Tile) : Prop := neighbours t' = neighbours t.

(** No covered neighbour of [t] carries a flag yet. *)
Definition no_flag_among_covered (s : Board) (t : Tile) : Prop :=
  Forall (λ n, tile_flagged s n = false)
         (List.filter (tile_covered s) (neighbours t)).

(** What [plant_flag] on a tile with neighbours [l] does to the tile [q]. *)
Definition planted (a : ref) (l : list ref) (q : ref) (t : Tile) : Tile :=
  Nat.iter (count_occ Nat.eq_dec l q) (bump 1)
           (if decide (q = a) then set_flagged true t else t).

(** ** Vocabulary for the remaining methods *)

(** A value the board construction can produce: the mine marker or a
    count of adjacent mines. *)
Definition well_valued (t : Tile) : Prop := -1 ≤ value t ≤ 8.

(** The mine counts: a tile that is not a mine carries the number of its
    neighbours that are. *)
Definition tile_mine (s : Board) (r : ref) : bool :=
  match s !! r with Some t => is_mine t | None => false end.

Arguments tile_mine s r%_nat.

Definition mined_neighbours (s : Board) (t : Tile) : list ref :=
  List.filter (tile_mine s) (neighbours t).

Definition values_consistent (s : Board) : Prop :=
  map_Forall (λ _ t, is_mine t = false →
                     value t = Z.of_nat (length (mined_neighbours s t))) s.

(** The play state [__init__] and [recover] establish. *)
Definition pristine (t : Tile) : Prop :=
  flagged t = false ∧ covered t = true ∧ down t = false
  ∧ status t = COVERED ∧ neighbour_flags t = 0.

(** The attributes fixed at board construction agree. *)
Definition same_static (t t' : Tile) : Prop :=
  x t' = x t ∧ y t' = y t ∧ value t' = value t ∧ neighbours t' = neighbours t.

(** The tiles agree once recovered. *)
Definition same_recovered (t t' : Tile) : Prop := recover t' = recover t.

(** All attributes other than [down] agree. *)
Definition same_but_down (t t' : Tile) : Prop := set_down (down t) t' = t.

(** All attributes other than [flagged] and [neighbour_flags] agree. *)
Definition same_but_flags (t t' : Tile) : Prop :=
  set_neighbour_flags (neighbour_flags t) (set_flagged (flagged t) t') = t.

(** The tiles [double_hold] on [r] addresses. *)
Definition held (r : ref) (t : Tile) (q : ref) : bool :=
  bool_decide (q = r ∨ q ∈ neighbours t).

(** * Properties *)

(** ** Termination of the flood fill *)

Section Termination.
Local Open Scope nat_scope.


Lemma pending_delete (s : Board) r t :
  s !! r = Some t → pending s = weight t + pending (delete r s).
Proof.
  intros Hr. unfold pending.
  apply (map_fold_delete_L (λ _ t acc, weight t + acc)); [intros; lia | done].
Qed.

Lemma pending_alter f (s : Board) r t :
  s !! r = Some t →
  pending (alter f r s) + weight t = pending s + weight (f t).
Proof.
  intros Hr. rewrite (pending_delete s r t Hr).
  rewrite (pending_delete (alter f r s) r (f t))
    by (by rewrite lookup_alter_eq, Hr).
  rewrite delete_alter_eq. lia.
Qed.

(** One iteration strictly lowers the remaining work. *)
Lemma basic_open_work BFS (s : Board) r rest s' eff ts :
  basic_open BFS s r = (s', eff, ts) →
  work s' (rest ++ ts) < work s (r :: rest).
Proof.
  unfold basic_open, work. intros Hb.
  destruct (s !! r) as [t|] eqn:Hr.
  - destruct (blocked t) eqn:Hbl.
    + injection Hb as <- <- <-. rewrite app_nil_r. simpl. lia.
    + pose proof (pending_alter (set_covered false) s r t Hr) as Hp.
      assert (weight t = S (length (neighbours t))) as Hw
        by (unfold weight; by rewrite Hbl).
      assert (weight (set_covered false t) = 0) as Hw'.
      { unfold weight, blocked. simpl. by rewrite orb_true_r. }
      rewrite Hw, Hw' in Hp.
      destruct (spreads BFS t); injection Hb as <- <- <-;
        rewrite length_app; simpl; lia.
  - injection Hb as <- <- <-. rewrite app_nil_r. simpl. lia.
Qed.

Lemma open_loop_enough BFS fuel : ∀ (s : Board) search changed,
  work s search ≤ fuel → is_Some (open_loop fuel BFS s search changed).
Proof.
  induction fuel as [|fuel IH]; intros s search changed Hw.
  - destruct search as [|t rest]; [by eexists|].
    unfold work in Hw. simpl in Hw. lia.
  - destruct search as [|t rest]; [by eexists|]. simpl.
    destruct (basic_open BFS s t) as [[s' eff] ts] eqn:Hb.
    apply IH. pose proof (basic_open_work _ _ _ rest _ _ _ Hb). lia.
Qed.

(** Fuel beyond what the loop consumes changes nothing. *)
Lemma open_loop_more BFS fuel : ∀ (s : Board) search changed res k,
  open_loop fuel BFS s search changed = Some res →
  open_loop (fuel + k) BFS s search changed = Some res.
Proof.
  induction fuel as [|fuel IH]; intros s search changed res k Hl.
  - destruct search; [|done]. by destruct k.
  - destruct search as [|t rest]; [done|]. simpl in *.
    destruct (basic_open BFS s t) as [[s' eff] ts]. by apply IH.
Qed.

Lemma open_returns BFS test_op (s : Board) r :
  ∃ s' changed,
    open_loop (work s [r]) BFS s [r] ∅ = Some (s', changed)
    ∧ open BFS test_op s r = Ret s' (if negb test_op then changed else ∅).
Proof.
  destruct (open_loop_enough BFS (work s [r]) s [r] ∅) as [[s' ch] Hl]; [done|].
  exists s', ch. split; [done|]. unfold open. by rewrite Hl.
Qed.
End Termination.

(** ** What the flood fill writes *)

Lemma set_covered_idem t :
  set_covered false (set_covered false t) = set_covered false t.
Proof. done. Qed.

Lemma lookup_opened ch (s : Board) r :
  opened ch s !! r
  = (λ t, if bool_decide (r ∈ ch) then set_covered false t else t) <$> s !! r.
Proof. unfold opened. rewrite map_lookup_imap. by destruct (s !! r). Qed.

Lemma opened_empty (s : Board) : opened ∅ s = s.
Proof.
  apply map_eq. intros r. rewrite lookup_opened.
  rewrite bool_decide_eq_false_2 by set_solver. by destruct (s !! r).
Qed.

Lemma alter_opened ch (s : Board) r :
  alter (set_covered false) r (opened ch s) = opened (ch ∪ {[r]}) s.
Proof.
  apply map_eq. intros i. rewrite lookup_alter, !lookup_opened.
  destruct (decide (r = i)) as [->|Hne]; destruct (s !! i) as [t|]; simpl;
    try done; f_equal.
  - rewrite (bool_decide_eq_true_2 (i ∈ ch ∪ {[i]})) by set_solver.
    by case_bool_decide.
  - repeat case_bool_decide; done || set_solver.
Qed.

Lemma opened_opened ch1 ch2 (s : Board) :
  opened ch2 (opened ch1 s) = opened (ch1 ∪ ch2) s.
Proof.
  apply map_eq. intros i. rewrite !lookup_opened.
  destruct (s !! i) as [t|]; [simpl|done]. f_equal.
  destruct (decide (i ∈ ch1)); destruct (decide (i ∈ ch2)).
  all: repeat case_bool_decide; done || set_solver.
Qed.

(** The two ways one call of [basic_open] can go during a flood fill
    that has opened [ch] so far. *)
Lemma basic_open_cases BFS ch (s0 : Board) r :
  (basic_open BFS (opened ch s0) r = (opened ch s0, false, [])
   ∧ (tile_openable s0 r = false ∨ r ∈ ch))
  ∨ (∃ t0, s0 !! r = Some t0 ∧ blocked t0 = false ∧ (r ∉ ch)
           ∧ basic_open BFS (opened ch s0) r
             = (opened (ch ∪ {[r]}) s0, true,
                if spreads BFS t0 then neighbours t0 else [])).
Proof.
  unfold basic_open, tile_openable. rewrite lookup_opened.
  destruct (s0 !! r) as [t0|] eqn:Hr; simpl; [|by left; split; [|left]].
  case_bool_decide as Hin.
  - left. unfold blocked at 1. simpl. rewrite orb_true_r. by split; [|right].
  - destruct (blocked t0) eqn:Hbl; [by left; split; [|left]|].
    right. exists t0. rewrite alter_opened. by destruct (spreads BFS t0).
Qed.

Lemma open_loop_opened BFS fuel : ∀ (s0 : Board) search ch s' ch',
  open_loop fuel BFS (opened ch s0) search ch = Some (s', ch') →
  s' = opened ch' s0 ∧ ch ⊆ ch'.
Proof.
  induction fuel as [|fuel IH]; intros s0 search ch s' ch' Hl.
  - destruct search; [|done]. by injection Hl as <- <-.
  - destruct search as [|r rest]; [by injection Hl as <- <-|].
    cbn [open_loop] in Hl.
    destruct (basic_open_cases BFS ch s0 r) as [[Hb _]|(t0 & _ & _ & _ & Hb)];
      rewrite Hb in Hl.
    + by apply IH in Hl.
    + apply IH in Hl as [-> Hsub]. split; [done|set_solver].
Qed.

(** ** What the flood fill reaches *)

Lemma reach_openable BFS (s : Board) r0 r :
  reach BFS s r0 r → tile_openable s r = true.
Proof. by destruct 1. Qed.

Lemma flood_inv_start BFS (s0 : Board) r0 : flood_inv BFS s0 r0 [r0] ∅.
Proof.
  repeat split.
  - set_solver.
  - intros r ->%list_elem_of_singleton Ho. by constructor.
  - set_solver.
  - intros _. right. by apply list_elem_of_singleton.
Qed.

(** One iteration of the loop keeps the invariant. *)
Lemma flood_inv_step BFS (s0 : Board) r0 r rest ch s' eff ts :
  flood_inv BFS s0 r0 (r :: rest) ch →
  basic_open BFS (opened ch s0) r = (s', eff, ts) →
  flood_inv BFS s0 r0 (rest ++ ts) (if eff then ch ∪ {[r]} else ch).
Proof.
  intros (Hch & Hq & Hcl & Hseed) Hb.
  destruct (basic_open_cases BFS ch s0 r) as [[Hb' Hwhy]|(t0 & Hr & Hbl & Hnin & Hb')];
    rewrite Hb' in Hb; injection Hb as <- <- <-.
  - rewrite app_nil_r.
    assert (∀ r', tile_openable s0 r' = true → r' ∈ r :: rest → r' ∈ ch ∨ r' ∈ rest)
      as Hdrop.
    { intros r' Ho [->|Hin]%elem_of_cons; [|by right].
      destruct Hwhy as [Hno|Hin]; [congruence|by left]. }
    repeat split.
    + done.
    + intros r' Hin. apply Hq. by right.
    + intros r1 t r' Hin Hlk Hsp Hnb Ho.
      destruct (Hcl r1 t r' Hin Hlk Hsp Hnb Ho) as [?|?]; [by left|by apply Hdrop].
    + intros Ho. destruct (Hseed Ho) as [?|?]; [by left|by apply Hdrop].
  - assert (tile_openable s0 r = true) as Hor
      by (unfold tile_openable; by rewrite Hr, Hbl).
    assert (reach BFS s0 r0 r) as Hreach by (apply Hq; [by left|done]).
    repeat split.
    + intros r' [Hin| ->%elem_of_singleton]%elem_of_union; [by apply Hch|done].
    + intros r' [Hin|Hin]%elem_of_app Ho; [apply Hq; [by right|done]|].
      destruct (spreads BFS t0) eqn:Hsp; [|by apply elem_of_nil in Hin].
      by eapply reach_next.
    + intros r1 t r' [Hin| ->%elem_of_singleton]%elem_of_union Hlk Hsp Hnb Ho.
      * destruct (Hcl r1 t r' Hin Hlk Hsp Hnb Ho) as [?|[->|?]%elem_of_cons].
        -- left. set_solver.
        -- left. set_solver.
        -- right. apply elem_of_app. by left.
      * rewrite Hr in Hlk. injection Hlk as <-. rewrite Hsp.
        right. apply elem_of_app. by right.
    + intros Ho. destruct (Hseed Ho) as [?|[->|?]%elem_of_cons].
      * left. set_solver.
      * left. set_solver.
      * right. apply elem_of_app. by left.
Qed.

Lemma open_loop_reach BFS (s0 : Board) r0 fuel : ∀ search ch s' ch',
  flood_inv BFS s0 r0 search ch →
  open_loop fuel BFS (opened ch s0) search ch = Some (s', ch') →
  ∀ r, r ∈ ch' ↔ reach BFS s0 r0 r.
Proof.
  induction fuel as [|fuel IH]; intros search ch s' ch' Hinv Hl.
  - destruct search; [|done]. injection Hl as <- <-.
    destruct Hinv as (Hch & _ & Hcl & Hseed). intros r. split; [apply Hch|].
    induction 1 as [Ho|r1 t r' _ IHr Hlk Hsp Hnb Ho].
    + destruct (Hseed Ho) as [?|Hin]; [done|by apply elem_of_nil in Hin].
    + destruct (Hcl r1 t r' IHr Hlk Hsp Hnb Ho) as [?|Hin];
        [done|by apply elem_of_nil in Hin].
  - destruct search as [|r1 rest].
    + apply (IH [] ch s' ch' Hinv). by destruct fuel.
    + cbn [open_loop] in Hl.
      destruct (basic_open BFS (opened ch s0) r1) as [[s1 eff] ts] eqn:Hb.
      pose proof (flood_inv_step _ _ _ _ _ _ _ _ _ Hinv Hb) as Hinv'.
      destruct (basic_open_cases BFS ch s0 r1) as [[Hb' _]|(t0 & _ & _ & _ & Hb')];
        rewrite Hb' in Hb; injection Hb as <- <- <-; by eapply IH.
Qed.

(** [open] returns: it uncovers exactly the tiles that are due from the
    seed and, outside introspection mode, returns exactly that set. *)
Lemma open_spec BFS test_op (s : Board) r0 :
  ∃ ch, open BFS test_op s r0 = Ret (opened ch s) (if negb test_op then ch else ∅)
        ∧ ∀ r, r ∈ ch ↔ reach BFS s r0 r.
Proof.
  destruct (open_returns BFS test_op s r0) as (s' & ch & Hl & Ho).
  rewrite <- (opened_empty s) in Hl at 2.
  pose proof (open_loop_opened _ _ _ _ _ _ _ Hl) as [-> _].
  exists ch. split; [done|].
  eapply open_loop_reach; [apply flood_inv_start|done].
Qed.

(** ** Frame reasoning

    Any relation between old and new attributes that is reflexive,
    transitive and kept by each single write of the core operations is
    kept by every core operation and by every session. *)

Section Frame.
Context (P : Tile → Tile → Prop) `{!Reflexive P, !Transitive P}.

Lemma tilewise_refl (s : Board) : tilewise P s s.
Proof. intros r. destruct (s !! r); by constructor. Qed.

Lemma tilewise_trans (s1 s2 s3 : Board) :
  tilewise P s1 s2 → tilewise P s2 s3 → tilewise P s1 s3.
Proof.
  intros H12 H23 r. specialize (H12 r). specialize (H23 r).
  destruct H12; inversion H23; subst; constructor. by etrans.
Qed.

Lemma tilewise_alter f (s : Board) r :
  (∀ t, P t (f t)) → tilewise P s (alter f r s).
Proof.
  intros Hf i.
  destruct (decide (r = i)) as [->|Hne];
    [rewrite lookup_alter_eq|rewrite lookup_alter_ne by done];
    destruct (s !! i); constructor; by auto.
Qed.

Lemma tilewise_for_each f l : ∀ s : Board,
  (∀ t, P t (f t)) → tilewise P s (for_each f l s).
Proof.
  induction l as [|r l IH]; intros s Hf; [apply tilewise_refl|].
  eapply tilewise_trans; [by apply (tilewise_alter f s r)|by apply IH].
Qed.

Lemma tilewise_double_hold (s : Board) r :
  (∀ t, P t (left_hold t)) → tilewise P s (double_hold s r).
Proof.
  intros Hh. unfold double_hold. destruct (s !! r); [|apply tilewise_refl].
  eapply tilewise_trans; [by apply tilewise_alter|by apply tilewise_for_each].
Qed.

(** Operations that only open tiles. *)
Section Opening.
Hypothesis open_ok : ∀ t, P t (set_covered false t).

Lemma tilewise_opened ch (s : Board) : tilewise P s (opened ch s).
Proof.
  intros i. rewrite lookup_opened. destruct (s !! i); constructor.
  by case_bool_decide.
Qed.

Lemma tilewise_open_each BFS l : ∀ (s s' : Board) cs,
  open_each BFS s l = Some (s', cs) → tilewise P s s'.
Proof.
  induction l as [|r l IH]; intros s s' cs He; simpl in He.
  - injection He as <- <-. apply tilewise_refl.
  - destruct (open_spec BFS false s r) as (ch & Ho & _). rewrite Ho in He.
    destruct (open_each BFS (opened ch s) l) as [[s2 cs2]|] eqn:He2; [|done].
    injection He as <- <-.
    eapply tilewise_trans; [apply tilewise_opened|by eapply IH].
Qed.

Lemma tilewise_double BFS (s s' : Board) r :
  final_state (double BFS s r) = Some s' → tilewise P s s'.
Proof.
  unfold double. destruct (s !! r) as [t|];
    [|intros [= <-]; apply tilewise_refl].
  destruct (chord_ready t); [|intros [= <-]; apply tilewise_refl].
  destruct (open_each BFS s (neighbours t)) as [[s1 cs]|] eqn:He; [|done].
  apply tilewise_open_each in He.
  destruct (set_union cs); by intros [= <-].
Qed.

(** Every operation but [flag]. *)
Lemma tilewise_run_op_quiet o (s s' : Board) :
  (∀ t, P t (left_hold t)) → (∀ t, P t (unhold t)) →
  (∀ easy_flag r, o ≠ OpFlag easy_flag r) →
  final_state (run_op o s) = Some s' → tilewise P s s'.
Proof.
  intros Hh Hu Hnf.
  destruct o as [BFS test_op r|easy_flag r|BFS r|r|r|r]; simpl.
  - destruct (open_spec BFS test_op s r) as (ch & -> & _).
    intros [= <-]. apply tilewise_opened.
  - by destruct (Hnf easy_flag r).
  - apply tilewise_double.
  - intros [= <-]. by apply tilewise_alter.
  - intros [= <-]. by apply tilewise_double_hold.
  - intros [= <-]. by apply tilewise_alter.
Qed.
End Opening.

(** All operations. *)
Section AllWrites.
Hypothesis write_ok : ∀ f t, core_write f → P t (f t).

Lemma tilewise_plant_flag (s : Board) r : tilewise P s (plant_flag s r).
Proof.
  unfold plant_flag. destruct (s !! r); [|apply tilewise_refl].
  eapply tilewise_trans; [apply tilewise_alter|apply tilewise_for_each];
    intros; apply write_ok; constructor.
Qed.

Lemma tilewise_flag easy_flag (s : Board) r :
  tilewise P s (flag easy_flag s r).1.
Proof.
  unfold flag. destruct (s !! r) as [t|]; [|apply tilewise_refl].
  destruct (flagged t); [|destruct (covered t)].
  - eapply tilewise_trans; [apply tilewise_alter|apply tilewise_for_each];
      intros; apply write_ok; constructor.
  - eapply tilewise_trans; [apply tilewise_alter|apply tilewise_for_each];
      intros; apply write_ok; constructor.
  - destruct easy_flag; [|apply tilewise_refl].
    destruct (_ =? _); [simpl|apply tilewise_refl].
    generalize (List.filter (tile_covered s) (neighbours t)). intros l.
    revert s. induction l as [|n l IH]; intros s1;
      [apply tilewise_refl|].
    eapply tilewise_trans; [apply tilewise_plant_flag|apply IH].
Qed.

Lemma tilewise_run_op o (s s' : Board) :
  final_state (run_op o s) = Some s' → tilewise P s s'.
Proof.
  destruct o as [BFS test_op r|easy_flag r|BFS r|r|r|r].
  2: { simpl. pose proof (tilewise_flag easy_flag s r) as Hf.
       destruct (flag easy_flag s r). by intros [= <-]. }
  all: apply tilewise_run_op_quiet; try done;
    intros; apply write_ok; constructor.
Qed.

Lemma tilewise_run_ops os : ∀ s s' : Board,
  run_ops os s = Some s' → tilewise P s s'.
Proof.
  induction os as [|o os IH]; intros s s'; simpl.
  - intros [= <-]. apply tilewise_refl.
  - destruct (final_state (run_op o s)) as [s1|] eqn:Ho; [|done].
    intros Hr. eapply tilewise_trans; [by eapply tilewise_run_op|by apply IH].
Qed.
End AllWrites.
End Frame.

(** ** Every core operation leaves a final store *)

Lemma open_each_returns BFS l : ∀ s : Board,
  ∃ s' cs, open_each BFS s l = Some (s', cs) ∧ length cs = length l.
Proof.
  induction l as [|r l IH]; intros s; simpl; [by exists s, []|].
  destruct (open_spec BFS false s r) as (ch & -> & _).
  destruct (IH (opened ch s)) as (s' & cs & -> & Hlen).
  exists s', (ch :: cs). simpl. by rewrite Hlen.
Qed.

Lemma run_op_final o (s : Board) : is_Some (final_state (run_op o s)).
Proof.
  destruct o as [BFS test_op r|easy_flag r|BFS r|r|r|r]; simpl; try done.
  - by destruct (open_spec BFS test_op s r) as (ch & -> & _).
  - by destruct (flag easy_flag s r).
  - unfold double. destruct (s !! r) as [t|]; [|done].
    destruct (chord_ready t); [|done].
    destruct (open_each_returns BFS (neighbours t) s) as (s' & cs & -> & _).
    by destruct (set_union cs).
Qed.

Lemma run_ops_final os : ∀ s : Board, is_Some (run_ops os s).
Proof.
  induction os as [|o os IH]; intros s; simpl; [done|].
  destruct (run_op_final o s) as [s1 ->]. apply IH.
Qed.

(** ** Claims *)

(** C7.  On every board (a finite store), [open] terminates: with one unit
    of fuel per dequeue, [work s [r]] units, one for the seed plus one
    for each tile that can still be opened and one for each neighbour such
    a tile may enqueue, are enough for the loop to empty its queue, more
    fuel changes nothing, and [open] returns the loop's result.  The bound
    holds because a tile that is opened stops counting (it can be opened
    once) and a blocked tile enqueues nothing ([basic_open_work]). *)
Theorem open_terminates (BFS test_op : bool) (s : Board) (r : ref) :
  ∃ s' changed,
    (∀ k, open_loop (work s [r] + k) BFS s [r] ∅ = Some (s', changed))
    ∧ open BFS test_op s r = Ret s' (if negb test_op then changed else ∅).
Proof.
  destruct (open_returns BFS test_op s r) as (s' & ch & Hl & Ho).
  exists s', ch. split; [|done]. intros k. by apply open_loop_more.
Qed.

(** A tile that is flagged or open is left alone and enqueues nothing. *)
Lemma basic_open_blocked BFS (s : Board) r t :
  s !! r = Some t → blocked t = true → basic_open BFS s r = (s, false, []).
Proof. intros Hr Hb. unfold basic_open. by rewrite Hr, Hb. Qed.

(** An effective [basic_open] leaves the tile blocked: it is effective
    at most once. *)
Lemma basic_open_once BFS (s s' : Board) r ts :
  basic_open BFS s r = (s', true, ts) →
  ∃ t', s' !! r = Some t' ∧ blocked t' = true.
Proof.
  unfold basic_open. destruct (s !! r) as [t|] eqn:Hr; [|done].
  destruct (blocked t); [done|].
  intros Hb. exists (set_covered false t). split.
  - destruct (spreads BFS t); injection Hb as <- <-;
      by rewrite lookup_alter_eq, Hr.
  - unfold blocked. simpl. apply orb_true_r.
Qed.

#[local] Instance same_but_covered_refl : Reflexive same_but_covered.
Proof. intros t. by repeat split. Qed.

#[local] Instance same_but_covered_trans : Transitive same_but_covered.
Proof.
  intros t1 t2 t3 H12 H23. unfold same_but_covered in *.
  destruct_and!. repeat split; congruence.
Qed.

Lemma same_but_covered_opened ch (s : Board) :
  tilewise same_but_covered s (opened ch s).
Proof.
  intros i. rewrite lookup_opened. destruct (s !! i); constructor.
  case_bool_decide; by repeat split.
Qed.

(** C10.  [open] returns, and the store it leaves is the old one with
    [covered] set to false on the tiles it opened: every other attribute
    of every tile ([x], [y], [value], [flagged], [down], [status],
    [neighbours], [neighbour_flags]) is as before, and a tile that was not
    opened is untouched.  The same holds for one [basic_open]. *)
Theorem open_writes_only_covered (BFS test_op : bool) (s : Board) (r : ref) :
  (∃ ch, open BFS test_op s r = Ret (opened ch s) (if negb test_op then ch else ∅)
         ∧ tilewise same_but_covered s (opened ch s)
         ∧ ∀ r', r' ∉ ch → opened ch s !! r' = s !! r')
  ∧ (∃ ch, (basic_open BFS s r).1.1 = opened ch s
           ∧ tilewise same_but_covered s (opened ch s)).
Proof.
  split.
  - destruct (open_spec BFS test_op s r) as (ch & Ho & _).
    exists ch. split; [done|]. split; [apply same_but_covered_opened|].
    intros r' Hnin. rewrite lookup_opened.
    rewrite bool_decide_eq_false_2 by done. by destruct (s !! r').
  - destruct (basic_open_cases BFS ∅ s r) as [[Hb _]|(t0 & _ & _ & _ & Hb)];
      rewrite opened_empty in Hb; rewrite Hb; simpl.
    + exists ∅. split; [by rewrite opened_empty|apply same_but_covered_opened].
    + eexists. split; [done|apply same_but_covered_opened].
Qed.

#[local] Instance stays_open_refl : Reflexive stays_open.
Proof. intros t H. exact H. Qed.

#[local] Instance stays_open_trans : Transitive stays_open.
Proof. intros t1 t2 t3 H12 H23 H. by apply H23, H12. Qed.

Lemma stays_open_write f t : core_write f → stays_open t (f t).
Proof.
  intros [] H; simpl; try done.
  - unfold left_hold. by destruct (_ && _).
  - unfold unhold. by destruct (negb _).
Qed.

(** C8.  Through any session of core operations (open, flag, double,
    left_hold, double_hold, unhold) a tile whose [covered] is false keeps
    it false: the session leaves a final store, and the tile is still
    uncovered there.  [recover] is what sets [covered] back to true. *)
Theorem covered_irreversible (os : list op) (s : Board) (r : ref) (t : Tile) :
  s !! r = Some t → covered t = false →
  ∃ s' t', run_ops os s = Some s' ∧ s' !! r = Some t'
           ∧ covered t' = false ∧ covered (recover t') = true.
Proof.
  intros Hr Hc. destruct (run_ops_final os s) as [s' Hrun].
  pose proof (tilewise_run_ops stays_open stays_open_write os s s' Hrun r) as Hrel.
  rewrite Hr in Hrel. inversion Hrel as [? t' Hst Heq1 Heq2|]; subst.
  exists s', t'. repeat split; [done|done|by apply Hst].
Qed.

Lemma covered_irreversible_witness :
  ∃ s' t',
    run_ops [OpFlag true 0; OpLeftHold 0; OpDoubleHold 0; OpUnhold 0;
             OpDouble true 0; OpOpen true false 0; OpFlag false 0]
            (opened {[0%nat]} board1) = Some s'
    ∧ s' !! 0%nat = Some t' ∧ covered t' = false ∧ covered (recover t') = true.
Proof.
  apply (covered_irreversible _ (opened {[0%nat]} board1) 0%nat
           (set_covered false (new_tile 0 0))); reflexivity.
Defined.

#[local] Instance same_status_refl : Reflexive same_status.
Proof. intros t. reflexivity. Qed.

#[local] Instance same_status_trans : Transitive same_status.
Proof. intros t1 t2 t3 H12 H23. unfold same_status in *. congruence. Qed.

Lemma same_status_write f t : core_write f → same_status t (f t).
Proof.
  intros []; unfold same_status; simpl; try done.
  - unfold left_hold. by destruct (_ && _).
  - unfold unhold. by destruct (negb _).
Qed.

(** C3, as the code has it.  [get_status] returns the stored [status]
    attribute.  No core operation writes it, so after an operation every
    tile reports the code it reported before; the code derived from
    [flagged], [down], [covered] and [value] is what [get_status] returns
    once [update] has been called on the tile. *)
Theorem status_is_stored (o : op) (s s' : Board) (r : ref) (t' : Tile) :
  final_state (run_op o s) = Some s' → s' !! r = Some t' →
  (∃ t, s !! r = Some t ∧ get_status t' = get_status t)
  ∧ get_status (update t') = display_code t'
  ∧ display_code (update t') = display_code t'.
Proof.
  intros Hrun Hr'.
  pose proof (tilewise_run_op same_status same_status_write o s s' Hrun r) as Hrel.
  rewrite Hr' in Hrel. inversion Hrel as [t ? Hst Heq1 Heq2|]; subst.
  split; [by exists t|done].
Qed.

Lemma status_is_stored_witness :
  (∃ t, board1 !! 0%nat = Some t
        ∧ get_status (set_flagged true (new_tile 0 0)) = get_status t)
  ∧ get_status (update (set_flagged true (new_tile 0 0))) 
    = display_code (set_flagged true (new_tile 0 0))
  ∧ display_code (update (set_flagged true (new_tile 0 0)))
    = display_code (set_flagged true (new_tile 0 0)).
Proof.
  apply (status_is_stored (OpFlag false 0) board1
           (alter (set_flagged true) 0%nat board1) 0%nat); reflexivity.
Defined.

(** C3 as stated fails: flagging the covered tile of a one-tile board
    leaves [get_status] at COVERED while the derived code is FLAGGED. *)
Lemma status_stale_after_flag :
  ¬ (∀ (o : op) (s s' : Board) (r : ref) (t' : Tile),
       final_state (run_op o s) = Some s' → s' !! r = Some t' →
       get_status t' = display_code t').
Proof.
  intros H.
  specialize (H (OpFlag false 0) board1 (alter (set_flagged true) 0%nat board1)
                0%nat (set_flagged true (new_tile 0 0)) eq_refl eq_refl).
  discriminate H.
Qed.

(** ** Introspection mode *)

(** In introspection mode [open] returns the empty set, whatever it
    examined. *)
Lemma open_test_op_empty BFS (s : Board) r :
  ∃ s', open BFS true s r = Ret s' ∅.
Proof. destruct (open_spec BFS true s r) as (ch & Ho & _). by eexists. Qed.

(** C5 fails on the code.  On the board of one covered tile, [open] in
    introspection mode dequeues the tile and opens it, and returns the
    empty set, not the set holding the examined tile. *)
Theorem open_test_op_lone_tile :
  open false true board1 0 = Ret (opened {[0%nat]} board1) ∅
  ∧ open false false board1 0 = Ret (opened {[0%nat]} board1) {[0%nat]}.
Proof. split; reflexivity. Qed.

(** ** Chording *)

(** A request that is not ready (tile covered, or value and flag count
    differ) returns the empty set and writes nothing. *)
Lemma double_invalid_noop BFS (s : Board) r t :
  s !! r = Some t → chord_ready t = false → double BFS s r = Ret s ∅.
Proof. intros Hr Hc. unfold double. by rewrite Hr, Hc. Qed.

(** A ready request opens each neighbour in turn; with at least one
    neighbour it returns the union of what the calls returned, with none
    it raises. *)
Lemma double_ready BFS (s : Board) r t :
  s !! r = Some t → chord_ready t = true →
  ∃ s' cs, open_each BFS s (neighbours t) = Some (s', cs)
           ∧ length cs = length (neighbours t)
           ∧ double BFS s r
             = match cs with
               | [] => Exn s' TypeError
               | c :: cs' => Ret s' (foldl (∪) c cs')
               end.
Proof.
  intros Hr Hc. unfold double. rewrite Hr, Hc.
  destruct (open_each_returns BFS (neighbours t) s) as (s' & cs & He & Hlen).
  exists s', cs. rewrite He. by destruct cs.
Qed.

(** Every operation other than [double] returns. *)
Lemma run_op_returns o (s : Board) :
  (∀ BFS r, o ≠ OpDouble BFS r) → ∃ s' v, run_op o s = Ret s' v.
Proof.
  intros Hnd. destruct o as [BFS test_op r|easy_flag r|BFS r|r|r|r]; simpl;
    try by eauto.
  - destruct (open_spec BFS test_op s r) as (ch & -> & _). eauto.
  - destruct (flag easy_flag s r). eauto.
  - by destruct (Hnd BFS r).
Qed.

(** The invalid requests are no-ops that return the empty set. *)
Lemma open_flagged_noop BFS test_op (s : Board) r t :
  s !! r = Some t → blocked t = true → open BFS test_op s r = Ret s ∅.
Proof.
  intros Hr Hb. unfold open, work. cbn [length Nat.add open_loop].
  rewrite (basic_open_blocked BFS s r t Hr Hb). cbn [app open_loop].
  by destruct test_op, (pending s).
Qed.

Lemma flag_open_noop (s : Board) r t :
  s !! r = Some t → flagged t = false → covered t = false →
  flag false s r = (s, ∅).
Proof. intros Hr Hf Hc. unfold flag. by rewrite Hr, Hf, Hc. Qed.

(** C4 fails on the code at a ready tile without neighbours.  On the
    one-tile board with the tile open, the tile is ready (value 0, no
    flags), the union of the calls on its neighbours would be the empty
    set, and [double] raises [TypeError] instead of returning it. *)
Theorem double_ready_lone_tile :
  (∃ t, opened {[0%nat]} board1 !! 0%nat = Some t
        ∧ chord_ready t = true ∧ neighbours t = [])
  ∧ double false (opened {[0%nat]} board1) 0
    = Exn (opened {[0%nat]} board1) TypeError
  ∧ double true (opened {[0%nat]} board1) 0
    = Exn (opened {[0%nat]} board1) TypeError.
Proof. split; [by eexists|split; reflexivity]. Qed.

(** C6 fails on the code.  On a 1×1 board the only tile has an empty
    neighbour set; opening it returns, and chording it then raises
    [TypeError]. *)
Theorem double_raises_on_1x1 :
  ∃ s1, run_op (OpOpen false false 0) board1 = Ret s1 {[0%nat]}
        ∧ run_op (OpDouble false 0) s1 = Exn s1 TypeError.
Proof. eexists. split; reflexivity. Qed.

(** ** Equality and hashing of tiles *)

Lemma NoDup_fmap_eq {A B} (f : A → B) (l : list A) a b :
  NoDup (f <$> l) → a ∈ l → b ∈ l → f a = f b → a = b.
Proof.
  induction l as [|c l IH]; intros Hnd Ha Hb Hf; [by apply elem_of_nil in Ha|].
  rewrite fmap_cons in Hnd. apply NoDup_cons in Hnd as [Hc Hnd].
  apply elem_of_cons in Ha as [->|Ha]; apply elem_of_cons in Hb as [->|Hb].
  - done.
  - destruct Hc. rewrite Hf. by apply list_elem_of_fmap_2.
  - destruct Hc. rewrite <- Hf. by apply list_elem_of_fmap_2.
  - by apply IH.
Qed.

(** C9, as the code has it.  Tiles compare equal, and hash equal, exactly
    when they are the same object; on a board that holds one tile per
    coordinate pair this is exactly when their coordinates are equal. *)
Theorem tile_eq_identity (s : Board) (a b : ref) (ta tb : Tile) :
  one_tile_per_coordinate s → s !! a = Some ta → s !! b = Some tb →
  (tile_eq a b = true ↔ a = b)
  ∧ (tile_hash a = tile_hash b ↔ a = b)
  ∧ (tile_eq a b = true ↔ get_coordinate ta = get_coordinate tb)
  ∧ (tile_hash a = tile_hash b ↔ get_coordinate ta = get_coordinate tb).
Proof.
  intros Hone Ha Hb.
  assert (tile_eq a b = true ↔ a = b) as Heq
    by (unfold tile_eq; apply bool_decide_eq_true).
  assert (a = b ↔ get_coordinate ta = get_coordinate tb) as Hco.
  { split; [intros ->; congruence|]. intros Hc.
    apply elem_of_map_to_list in Ha, Hb.
    by injection (NoDup_fmap_eq (λ p, get_coordinate p.2) _ _ _ Hone Ha Hb Hc). }
  unfold tile_hash. rewrite Heq, <- Hco. done.
Qed.

Lemma tile_eq_identity_witness :
  (tile_eq 0 1 = true ↔ 0%nat = 1%nat)
  ∧ (tile_hash 0 = tile_hash 1 ↔ 0%nat = 1%nat)
  ∧ (tile_eq 0 1 = true
     ↔ get_coordinate (set_neighbours [1%nat] (new_tile 0 0))
       = get_coordinate (set_neighbours [0%nat] (new_tile 1 0)))
  ∧ (tile_hash 0 = tile_hash 1
     ↔ get_coordinate (set_neighbours [1%nat] (new_tile 0 0))
       = get_coordinate (set_neighbours [0%nat] (new_tile 1 0))).
Proof.
  apply (tile_eq_identity (grid 2 1));
    [apply (bool_decide_unpack _); vm_compute; exact I|reflexivity|reflexivity].
Defined.

(** C9 as stated fails: two tile objects built with the same coordinates
    are not equal. *)
Lemma tile_eq_not_by_coordinate :
  ¬ (∀ (s : Board) (a b : ref) (ta tb : Tile),
       s !! a = Some ta → s !! b = Some tb →
       (tile_eq a b = true ↔ get_coordinate ta = get_coordinate tb)).
Proof.
  intros H.
  destruct (H twins 0%nat 1%nat (new_tile 0 0) (new_tile 0 0) eq_refl eq_refl)
    as [_ Hback].
  discriminate (Hback eq_refl).
Qed.

(** ** The zero region *)

Lemma spreads_plain t : spreads false t = true ↔ value t = 0.
Proof. unfold spreads. rewrite orb_false_r. apply Z.eqb_eq. Qed.

Lemma zero_region_value (s : Board) r0 r :
  zero_region s r0 r → ∃ t, s !! r = Some t ∧ value t = 0.
Proof. destruct 1; eauto. Qed.

Lemma openable_lookup (s : Board) r :
  tile_openable s r = true → ∃ t, s !! r = Some t ∧ blocked t = false.
Proof.
  unfold tile_openable. destruct (s !! r) as [t|]; [|done].
  intros Hb%negb_true_iff. eauto.
Qed.

(** Without the chord-while-opening mode, what the flood fill is due to
    open lies in the zero region of the seed or on its border. *)
Lemma reach_in_region (s : Board) r0 t0 r :
  s !! r0 = Some t0 → value t0 = 0 →
  reach false s r0 r → zero_region s r0 r ∨ numbered_border s r0 r.
Proof.
  intros H0 Hv0. induction 1 as [Ho|r1 t r' Hreach IH Hlk Hsp Hnb Ho].
  - left. by econstructor.
  - apply spreads_plain in Hsp.
    assert (zero_region s r0 r1) as Hz.
    { destruct IH as [?|(? & ? & t' & _ & _ & _ & Hlk' & Hne)]; [done|].
      congruence. }
    destruct (openable_lookup _ _ Ho) as (t' & Hlk' & _).
    destruct (decide (value t' = 0)).
    + left. by econstructor.
    + right. by exists r1, t, t'.
Qed.

(** Conversely, where the region and its border are covered and
    unflagged, all of it is due. *)
Lemma region_reach (s : Board) r0 :
  (∀ r, zero_region s r0 r ∨ numbered_border s r0 r → tile_openable s r = true) →
  ∀ r, zero_region s r0 r ∨ numbered_border s r0 r → reach false s r0 r.
Proof.
  intros Hopen.
  assert (∀ r, zero_region s r0 r → reach false s r0 r) as Hzero.
  { induction 1 as [t0 H0 Hv0|r1 t r' t' Hz IH Hlk Hnb Hlk' Hv'].
    - apply reach_seed, Hopen. left. by econstructor.
    - destruct (zero_region_value _ _ _ Hz) as (t1 & Hlk1 & Hv1).
      assert (t1 = t) as -> by congruence.
      eapply reach_next; [done|done|by apply spreads_plain|done|].
      apply Hopen. left. by econstructor. }
  intros r [Hz|(r1 & t & t' & Hz & Hlk & Hnb & Hlk' & Hne)]; [by apply Hzero|].
  destruct (zero_region_value _ _ _ Hz) as (t1 & Hlk1 & Hv1).
  assert (t1 = t) as -> by congruence.
  eapply reach_next; [by apply Hzero|done|by apply spreads_plain|done|].
  apply Hopen. right. by exists r1, t, t'.
Qed.

(** C2, as the code has it.  Where every tile of the zero region of the
    seed and of its numbered border is covered and unflagged, [open] on a
    0-valued seed returns exactly the zero region plus its numbered
    border, uncovers each of those tiles and touches no other tile. *)
Theorem open_zero_region (s : Board) (r0 : ref) (t0 : Tile) :
  s !! r0 = Some t0 → value t0 = 0 →
  (∀ r, zero_region s r0 r ∨ numbered_border s r0 r → tile_openable s r = true) →
  ∃ ch, open false false s r0 = Ret (opened ch s) ch
        ∧ (∀ r, r ∈ ch ↔ zero_region s r0 r ∨ numbered_border s r0 r)
        ∧ (∀ r, r ∈ ch → tile_covered (opened ch s) r = false)
        ∧ (∀ r, r ∉ ch → opened ch s !! r = s !! r).
Proof.
  intros H0 Hv0 Hopen.
  destruct (open_spec false false s r0) as (ch & Ho & Hch).
  exists ch. split; [done|]. split; [|split].
  - intros r. rewrite Hch. split; [by eapply reach_in_region|by apply region_reach].
  - intros r Hin. unfold tile_covered. rewrite lookup_opened.
    rewrite bool_decide_eq_true_2 by done. by destruct (s !! r).
  - intros r Hnin. rewrite lookup_opened.
    rewrite bool_decide_eq_false_2 by done. by destruct (s !! r).
Qed.

Lemma region_on_board (s : Board) r0 r :
  zero_region s r0 r ∨ numbered_border s r0 r → is_Some (s !! r).
Proof.
  intros [Hz|(? & ? & t' & _ & _ & _ & Hlk & _)]; [|by eexists].
  destruct (zero_region_value _ _ _ Hz) as (t & Hlk & _). by eexists.
Qed.

Lemma fresh_openable (s : Board) r :
  fresh s → is_Some (s !! r) → tile_openable s r = true.
Proof.
  intros Hf [t Hlk]. unfold tile_openable. rewrite Hlk.
  by rewrite (Hf r t Hlk).
Qed.

Lemma open_zero_region_witness :
  ∃ ch, open false false board5 12 = Ret (opened ch board5) ch
        ∧ (∀ r, r ∈ ch ↔ zero_region board5 12 r ∨ numbered_border board5 12 r)
        ∧ (∀ r, r ∈ ch → tile_covered (opened ch board5) r = false)
        ∧ (∀ r, r ∉ ch → opened ch board5 !! r = board5 !! r).
Proof.
  apply (open_zero_region board5 12%nat
           (set_neighbours (adjacent 5 5 2 2) (new_tile 2 2)));
    [reflexivity|reflexivity|].
  intros r Hr. apply fresh_openable; [|by apply (region_on_board _ 12%nat)].
  apply (bool_decide_unpack _). vm_compute. exact I.
Defined.

(** The 5×5 board without mines: [open] on any of its tiles returns all 25
    tiles and leaves all of them uncovered. *)
Example open_board5_everything :
  Forall (λ r, open false false board5 r
               = Ret (opened (list_to_set (seq 0 25)) board5)
                     (list_to_set (seq 0 25)))
         (seq 0 25).
Proof. repeat constructor; vm_compute; reflexivity. Qed.

(** The 3×3 board with the mine in the centre: [open] on a corner
    returns that corner alone. *)
Example open_board3_corner :
  Forall (λ r, open false false board3 r
               = Ret (opened {[r]} board3) {[r]})
         [0; 2; 6; 8]%nat.
Proof. repeat constructor; vm_compute; reflexivity. Qed.

(** C2 as stated fails: on the 2×1 board without mines, both tiles have
    value 0; with the second one flagged, [open] on the first returns the
    first alone, though the second lies in its zero region. *)
Lemma open_stops_at_flag :
  ¬ (∀ (s : Board) (r0 : ref) (t0 : Tile),
       s !! r0 = Some t0 → value t0 = 0 →
       ∃ s' ch, open false false s r0 = Ret s' ch
                ∧ ∀ r, r ∈ ch ↔ zero_region s r0 r ∨ numbered_border s r0 r).
Proof.
  intros H.
  destruct (H (flag false (grid 2 1) 1).1 0%nat
              (bump 1 (set_neighbours [1%nat] (new_tile 0 0))) eq_refl eq_refl)
    as (s' & ch & Ho & Hch).
  assert (open false false (flag false (grid 2 1) 1).1 0
          = Ret (opened {[0%nat]} (flag false (grid 2 1) 1).1) {[0%nat]}) as E
    by (vm_compute; reflexivity).
  rewrite E in Ho. injection Ho as <- <-.
  assert (1%nat ∈ ({[0%nat]} : gset ref)) as Hin; [|set_solver].
  apply Hch. left.
  eapply (zero_next _ _ 0%nat); [by eapply zero_seed|reflexivity| |reflexivity|done].
  by apply list_elem_of_singleton.
Qed.

(** ** The flag counters *)

Lemma lookup_for_each f l : ∀ (s : Board) q,
  NoDup l →
  for_each f l s !! q = (if bool_decide (q ∈ l) then f else id) <$> s !! q.
Proof.
  induction l as [|r l IH]; intros s q Hnd.
  - simpl. by destruct (s !! q).
  - apply NoDup_cons in Hnd as [Hr Hnd]. unfold for_each in *. simpl.
    rewrite IH by done.
    destruct (decide (q = r)) as [->|Hne].
    + rewrite lookup_alter_eq.
      rewrite bool_decide_eq_false_2, bool_decide_eq_true_2 by set_solver.
      by destruct (s !! r).
    + rewrite lookup_alter_ne by done.
      destruct (decide (q ∈ l)).
      * by rewrite !bool_decide_eq_true_2 by set_solver.
      * by rewrite !bool_decide_eq_false_2 by set_solver.
Qed.

Lemma tile_flagged_for_each_bump k l : ∀ (s : Board) n,
  tile_flagged (for_each (bump k) l s) n = tile_flagged s n.
Proof.
  induction l as [|r l IH]; intros s n; [done|].
  unfold for_each in *. simpl. rewrite IH. unfold tile_flagged.
  destruct (decide (r = n)) as [->|Hne];
    [rewrite lookup_alter_eq|by rewrite lookup_alter_ne].
  by destruct (s !! n).
Qed.

(** Flipping what a predicate says at [r] changes the count over a
    duplicate-free list by one if [r] is in it. *)
Lemma count_toggle (f f' : ref → bool) r (b : bool) l :
  NoDup l → (∀ n, n ≠ r → f' n = f n) → f r = negb b → f' r = b →
  Z.of_nat (length (List.filter f' l))
  = Z.of_nat (length (List.filter f l))
    + (if bool_decide (r ∈ l) then (if b then 1 else -1) else 0).
Proof.
  intros Hnd Hother Hold Hnew.
  induction l as [|a l IH]; [done|].
  apply NoDup_cons in Hnd as [Ha Hnd]. specialize (IH Hnd). simpl.
  destruct (decide (a = r)) as [->|Hne].
  - rewrite bool_decide_eq_false_2 in IH by done.
    rewrite bool_decide_eq_true_2 by set_solver.
    rewrite Hold, Hnew. destruct b; simpl; lia.
  - rewrite (Hother a Hne).
    assert (bool_decide (r ∈ a :: l) = bool_decide (r ∈ l)) as ->
      by (apply bool_decide_ext; set_solver).
    destruct (f a); simpl; lia.
Qed.

Lemma wired_lookup (s : Board) r t n :
  wired s → s !! r = Some t → n ∈ neighbours t →
  ∃ tn, s !! n = Some tn ∧ r ∈ neighbours tn.
Proof.
  intros Hw Hr Hn. destruct (Hw r t Hr) as [_ Hall].
  rewrite Forall_forall in Hall. specialize (Hall n Hn).
  unfold linked in Hall. destruct (s !! n) as [tn|]; [|done].
  exists tn. split; [done|]. by apply bool_decide_eq_true in Hall.
Qed.

(** Setting or clearing the flag of [r] and adjusting the counter of each
    neighbour by one keeps the counters right. *)
Lemma flags_consistent_toggle (b : bool) (s : Board) r t :
  wired s → flags_consistent s → s !! r = Some t → flagged t = negb b →
  flags_consistent
    (for_each (bump (if b then 1 else -1)) (neighbours t)
              (alter (set_flagged b) r s)).
Proof.
  intros Hw Hc Hr Hfl q tq2 Hq2.
  destruct (Hw r t Hr) as [Hnd _].
  rewrite lookup_for_each in Hq2 by done.
  destruct (s !! q) as [tq|] eqn:Hq.
  2: { assert (alter (set_flagged b) r s !! q = None) as E
         by (by apply lookup_alter_None).
       by rewrite E in Hq2. }
  destruct (Hw q tq Hq) as [Hndq _].
  assert (bool_decide (r ∈ neighbours tq) = bool_decide (q ∈ neighbours t)) as Hsym.
  { apply bool_decide_ext. split; intros Hin.
    - destruct (wired_lookup s q tq r Hw Hq Hin) as (t' & Hr' & ?). congruence.
    - destruct (wired_lookup s r t q Hw Hr Hin) as (t' & Hq' & ?). congruence. }
  set (s2 := for_each _ _ _).
  assert (neighbours tq2 = neighbours tq
          ∧ neighbour_flags tq2
            = neighbour_flags tq
              + (if bool_decide (q ∈ neighbours t)
                 then (if b then 1 else -1) else 0)) as [Hnb Hnf].
  { destruct (decide (r = q)) as [->|Hne];
      [rewrite lookup_alter_eq, Hq in Hq2
      |rewrite lookup_alter_ne, Hq in Hq2 by done];
      simpl in Hq2; injection Hq2 as <-;
      destruct (bool_decide (q ∈ neighbours t)); simpl; split; (done || lia). }
  unfold flagged_neighbours. rewrite Hnb, Hnf, (Hc q tq Hq).
  unfold flagged_neighbours. rewrite <- Hsym. symmetry.
  apply count_toggle; [done| | |].
  - intros n Hne. unfold s2. rewrite tile_flagged_for_each_bump.
    unfold tile_flagged. by rewrite lookup_alter_ne.
  - unfold tile_flagged. by rewrite Hr.
  - unfold s2. rewrite tile_flagged_for_each_bump.
    unfold tile_flagged. by rewrite lookup_alter_eq, Hr.
Qed.

#[local] Instance same_wiring_refl : Reflexive same_wiring.
Proof. intros t. reflexivity. Qed.

#[local] Instance same_wiring_trans : Transitive same_wiring.
Proof. intros t1 t2 t3 H12 H23. unfold same_wiring in *. congruence. Qed.

Lemma same_wiring_write f t : core_write f → same_wiring t (f t).
Proof.
  intros []; unfold same_wiring; simpl; try done.
  - unfold left_hold. by destruct (_ && _).
  - unfold unhold. by destruct (negb _).
Qed.

#[local] Instance same_flags_refl : Reflexive same_flags.
Proof. intros t. by repeat split. Qed.

#[local] Instance same_flags_trans : Transitive same_flags.
Proof.
  intros t1 t2 t3 H12 H23. unfold same_flags in *.
  destruct_and!. repeat split; congruence.
Qed.

(** The wiring depends on the neighbour sets alone. *)
Lemma wired_tilewise (s s' : Board) :
  tilewise same_wiring s s' → wired s → wired s'.
Proof.
  intros Hrel Hw r t' Hr'.
  pose proof (Hrel r) as Hrr. rewrite Hr' in Hrr.
  inversion Hrr as [t ? Hnb Hr Heq|]; subst. symmetry in Hr.
  destruct (Hw r t Hr) as [Hnd Hall]. rewrite Hnb. split; [done|].
  rewrite Forall_forall in Hall |- *. intros n Hn.
  destruct (wired_lookup s r t n Hw Hr Hn) as (tn & Hlk & Hin).
  pose proof (Hrel n) as Hrn. rewrite Hlk in Hrn.
  inversion Hrn as [? tn' Hnb' Heq1 Hlk'|]; subst.
  unfold linked. rewrite <- Hlk'. apply bool_decide_eq_true. by rewrite Hnb'.
Qed.

(** The counter invariant depends on flags, counters and wiring alone. *)
Lemma flags_consistent_tilewise (s s' : Board) :
  tilewise same_flags s s' → flags_consistent s → flags_consistent s'.
Proof.
  intros Hrel Hc r t' Hr'.
  assert (∀ n, tile_flagged s' n = tile_flagged s n) as Hfl.
  { intros n. unfold tile_flagged. destruct (Hrel n) as [? ? (? & _)|]; done. }
  pose proof (Hrel r) as Hrr. rewrite Hr' in Hrr.
  inversion Hrr as [t ? (_ & Hnf & Hnb) Hr Heq|]; subst. symmetry in Hr.
  unfold flagged_neighbours. rewrite Hnf, Hnb, (Hc r t Hr).
  unfold flagged_neighbours. do 2 f_equal.
  apply List.filter_ext. intros n. by rewrite Hfl.
Qed.

Lemma plant_flag_consistent (s : Board) n :
  wired s → flags_consistent s → tile_flagged s n = false →
  flags_consistent (plant_flag s n).
Proof.
  intros Hw Hc Hfl. unfold plant_flag, tile_flagged in *.
  destruct (s !! n) as [tn|] eqn:Hn; [|done].
  by apply (flags_consistent_toggle true s n tn).
Qed.

Lemma tile_flagged_plant_flag (s : Board) n n' :
  n' ≠ n → tile_flagged (plant_flag s n) n' = tile_flagged s n'.
Proof.
  intros Hne. unfold plant_flag. destruct (s !! n) as [tn|]; [|done].
  unfold get_neighbours. rewrite tile_flagged_for_each_bump.
  unfold tile_flagged. by rewrite lookup_alter_ne.
Qed.

Lemma plant_flags_consistent l : ∀ s : Board,
  wired s → flags_consistent s → NoDup l →
  Forall (λ n, tile_flagged s n = false) l →
  flags_consistent (foldl plant_flag s l).
Proof.
  induction l as [|n l IH]; intros s Hw Hc Hnd Hall; [done|]. simpl.
  apply NoDup_cons in Hnd as [Hn Hnd]. apply Forall_cons in Hall as [Hfn Hall].
  apply IH; [| |done|].
  - eapply wired_tilewise; [|done].
    apply tilewise_plant_flag; [apply _..|apply same_wiring_write].
  - by apply plant_flag_consistent.
  - rewrite Forall_forall in Hall |- *. intros n' Hn'.
    rewrite tile_flagged_plant_flag by (intros ->; done). by apply Hall.
Qed.

(** [flag] keeps the counters right, except when the easy-flag branch
    meets a covered neighbour that is already flagged. *)
Lemma flag_consistent easy_flag (s : Board) r :
  wired s → flags_consistent s →
  (∀ t, easy_flag = true → s !! r = Some t → blocked t = true →
        flagged t = false → no_flag_among_covered s t) →
  flags_consistent (flag easy_flag s r).1.
Proof.
  intros Hw Hc Hclean. unfold flag.
  destruct (s !! r) as [t|] eqn:Hr; [|done].
  destruct (flagged t) eqn:Hfl; [|destruct (covered t) eqn:Hcov].
  - by apply (flags_consistent_toggle false s r t).
  - by apply (flags_consistent_toggle true s r t).
  - destruct easy_flag; [|done].
    destruct (_ =? _); [simpl|done].
    apply plant_flags_consistent; [done|done| |].
    + apply NoDup_ListNoDup, List.NoDup_filter, NoDup_ListNoDup.
      by destruct (Hw r t Hr).
    + apply Hclean; [done|done| |done]. unfold blocked. by rewrite Hfl, Hcov.
Qed.

(** Every core operation keeps the wiring, and keeps the counters right
    unless it is an easy-flag on an open tile that has a covered neighbour
    already flagged. *)
Lemma flags_consistent_run_op o (s s' : Board) :
  wired s → flags_consistent s →
  (∀ r t, o = OpFlag true r → s !! r = Some t → blocked t = true →
          flagged t = false → no_flag_among_covered s t) →
  final_state (run_op o s) = Some s' →
  wired s' ∧ flags_consistent s'.
Proof.
  intros Hw Hc Hclean Hrun. split.
  - eapply wired_tilewise; [|done].
    eapply tilewise_run_op; [apply _..|apply same_wiring_write|done].
  - destruct o as [BFS test_op r|easy_flag r|BFS r|r|r|r].
    2: { simpl in Hrun.
         pose proof (flag_consistent easy_flag s r Hw Hc) as Hf.
         destruct (flag easy_flag s r) as [s1 v]. injection Hrun as <-.
         apply Hf. intros t ->. by apply Hclean. }
    all: eapply flags_consistent_tilewise; [|done].
    all: eapply tilewise_run_op_quiet; [apply _..| | | | |done]; try done.
    all: intros t; unfold left_hold, unhold;
      repeat match goal with |- context [if ?c then _ else _] => destruct c end;
      by repeat split.
Qed.

(** A session without an easy-flag keeps the counters right. *)
Lemma flags_consistent_run_ops os : ∀ s s' : Board,
  wired s → flags_consistent s →
  Forall (λ o, ∀ r, o ≠ OpFlag true r) os →
  run_ops os s = Some s' →
  wired s' ∧ flags_consistent s'.
Proof.
  induction os as [|o os IH]; intros s s' Hw Hc Hall; simpl.
  - by intros [= <-].
  - apply Forall_cons in Hall as [Ho Hall].
    destruct (final_state (run_op o s)) as [s1|] eqn:Hrun; [|done].
    destruct (flags_consistent_run_op o s s1 Hw Hc) as [Hw1 Hc1]; [|done|].
    + intros r t ->. by destruct (Ho r).
    + by apply IH.
Qed.

(** C1 fails on the code.  On the 2×1 board with a mine on the second
    tile, the board is wired and its counters are right; opening the first
    tile and flagging the second keeps them right; easy-flagging the first
    tile (value 1, one covered neighbour, already flagged) then raises its
    counter to 2 while it has one flagged neighbour. *)
Theorem easy_flag_counts_twice :
  wired board2 ∧ flags_consistent board2
  ∧ ∃ s1 s2 t,
      run_ops [OpOpen false false 0; OpFlag false 1] board2 = Some s1
      ∧ flags_consistent s1
      ∧ run_op (OpFlag true 0) s1 = Ret s2 ∅
      ∧ s2 !! 0%nat = Some t
      ∧ neighbour_flags t = 2
      ∧ flagged_neighbours s2 t = [1%nat]
      ∧ ¬ flags_consistent s2.
Proof.
  split; [apply (bool_decide_unpack _); vm_compute; exact I|].
  split; [apply (bool_decide_unpack _); vm_compute; exact I|].
  eexists _, _, _. split; [reflexivity|].
  split; [apply (bool_decide_unpack _); vm_compute; exact I|].
  split; [reflexivity|]. split; [reflexivity|].
  split; [reflexivity|]. split; [reflexivity|].
  intros Hc. by specialize (Hc 0%nat _ eq_refl).
Qed.

(** ** The order of the easy-flag loop

    The loop of the easy-flag branch runs over a new set, whose iteration
    order need not be that of [self.neighbours].  Its writes commute, so
    the store it leaves does not depend on the order. *)

Lemma lookup_for_each_iter f l : ∀ (s : Board) q,
  for_each f l s !! q = Nat.iter (count_occ Nat.eq_dec l q) f <$> s !! q.
Proof.
  induction l as [|r l IH]; intros s q.
  - simpl. by destruct (s !! q).
  - unfold for_each in *. simpl. rewrite IH.
    destruct (Nat.eq_dec r q) as [->|Hne].
    + rewrite lookup_alter_eq. destruct (s !! q); [simpl|done].
      f_equal. symmetry. apply Nat.iter_succ_r.
    + by rewrite lookup_alter_ne.
Qed.

Lemma iter_bump n t :
  Nat.iter n (bump 1) t
  = set_neighbour_flags (neighbour_flags t + Z.of_nat n) t.
Proof.
  induction n as [|n IH].
  - destruct t. unfold set_neighbour_flags. simpl. f_equal. lia.
  - rewrite Nat.iter_succ, IH. unfold bump, set_neighbour_flags. simpl.
    f_equal. lia.
Qed.

Lemma lookup_plant_flag (s : Board) a ta q :
  s !! a = Some ta →
  plant_flag s a !! q = planted a (neighbours ta) q <$> s !! q.
Proof.
  intros Ha. unfold plant_flag, get_neighbours, planted. rewrite Ha.
  rewrite lookup_for_each_iter.
  destruct (decide (q = a)) as [->|Hne].
  - rewrite lookup_alter_eq, <- option_fmap_compose. reflexivity.
  - rewrite lookup_alter_ne by (by intros ->). reflexivity.
Qed.

Lemma planted_neighbours a l q t : neighbours (planted a l q t) = neighbours t.
Proof. unfold planted. rewrite iter_bump. by case_decide. Qed.

Lemma planted_comm a la b lb q t :
  planted b lb q (planted a la q t) = planted a la q (planted b lb q t).
Proof.
  unfold planted. rewrite !iter_bump.
  destruct t. repeat case_decide; unfold set_neighbour_flags, set_flagged;
    simpl; f_equal; lia.
Qed.

Lemma plant_flag_comm (s : Board) a b :
  plant_flag (plant_flag s a) b = plant_flag (plant_flag s b) a.
Proof.
  destruct (s !! a) as [ta|] eqn:Ha; destruct (s !! b) as [tb|] eqn:Hb.
  - apply map_eq. intros q.
    pose proof (lookup_plant_flag s a ta b Ha) as Hab. rewrite Hb in Hab.
    pose proof (lookup_plant_flag s b tb a Hb) as Hba. rewrite Ha in Hba.
    rewrite (lookup_plant_flag _ b _ q Hab), (lookup_plant_flag _ a _ q Hba).
    rewrite (lookup_plant_flag s a ta q Ha), (lookup_plant_flag s b tb q Hb).
    rewrite !planted_neighbours.
    destruct (s !! q); [simpl|done]. by rewrite planted_comm.
  - assert (plant_flag s b = s) as Hsb by (unfold plant_flag; by rewrite Hb).
    assert (plant_flag s a !! b = None) as Hab
      by (by rewrite (lookup_plant_flag s a ta b Ha), Hb).
    rewrite Hsb. unfold plant_flag at 1. by rewrite Hab.
  - assert (plant_flag s a = s) as Hsa by (unfold plant_flag; by rewrite Ha).
    assert (plant_flag s b !! a = None) as Hba
      by (by rewrite (lookup_plant_flag s b tb a Hb), Ha).
    rewrite Hsa. unfold plant_flag at 2. by rewrite Hba.
  - assert (plant_flag s a = s) as -> by (unfold plant_flag; by rewrite Ha).
    assert (plant_flag s b = s) as -> by (unfold plant_flag; by rewrite Hb).
    unfold plant_flag. by rewrite Ha.
Qed.

Lemma plant_flags_permutation l l' :
  l ≡ₚ l' → ∀ s : Board, foldl plant_flag s l = foldl plant_flag s l'.
Proof.
  induction 1 as [|a l l' _ IH|a b l|l1 l2 l3 _ IH12 _ IH23]; intros s; simpl.
  - done.
  - apply IH.
  - by rewrite plant_flag_comm.
  - by rewrite IH12.
Qed.

(** * Further properties of the tile class *)

(** ** The display codes *)

Ltac tile_cases t :=
  destruct t as [tx ty tv tf tc td ts tn tk]; simpl in *;
  destruct tf, tc, td; simpl.

(** X1.  The code [update] stores tells the state apart: for a value
    between -1 and 8, [get_status] after [update] is FLAGGED exactly for
    a flagged tile, DOWN for an unflagged pressed one, COVERED for an
    unflagged, unpressed, covered one, and at most 8 exactly for an open,
    unflagged, unpressed tile, where it is the value. *)
Theorem update_decodes (t : Tile) :
  well_valued t →
  (get_status (update t) = FLAGGED ↔ flagged t = true)
  ∧ (get_status (update t) = DOWN ↔ flagged t = false ∧ down t = true)
  ∧ (get_status (update t) = COVERED
     ↔ flagged t = false ∧ down t = false ∧ covered t = true)
  ∧ (get_status (update t) ≤ 8
     ↔ flagged t = false ∧ down t = false ∧ covered t = false)
  ∧ (get_status (update t) ≤ 8 → get_status (update t) = value t).
Proof.
  unfold well_valued, get_status, update, display_code, FLAGGED, DOWN, COVERED.
  intros Hv. tile_cases t; repeat split; intros; destruct_and?; try done; lia.
Qed.

Lemma update_decodes_witness :
  (get_status (update (new_tile 0 0)) = FLAGGED ↔ flagged (new_tile 0 0) = true)
  ∧ (get_status (update (new_tile 0 0)) = DOWN
     ↔ flagged (new_tile 0 0) = false ∧ down (new_tile 0 0) = true)
  ∧ (get_status (update (new_tile 0 0)) = COVERED
     ↔ flagged (new_tile 0 0) = false ∧ down (new_tile 0 0) = false
       ∧ covered (new_tile 0 0) = true)
  ∧ (get_status (update (new_tile 0 0)) ≤ 8
     ↔ flagged (new_tile 0 0) = false ∧ down (new_tile 0 0) = false
       ∧ covered (new_tile 0 0) = false)
  ∧ (get_status (update (new_tile 0 0)) ≤ 8
     → get_status (update (new_tile 0 0)) = value (new_tile 0 0)).
Proof. apply (update_decodes (new_tile 0 0)). unfold well_valued. simpl. lia. Defined.

(** X2.  The loss reveal.  For a value between -1 and 8, [get_status]
    after [update_blast] is WRONGFLAG exactly for a flagged tile that is
    not a mine, BLAST exactly for an uncovered mine, MINE exactly for a
    covered unflagged mine; a covered flagged mine shows FLAGGED and an
    unflagged tile that is not a mine shows its ordinary code. *)
Theorem update_blast_decodes (t : Tile) :
  well_valued t →
  (get_status (update_blast t) = WRONGFLAG
   ↔ flagged t = true ∧ is_mine t = false)
  ∧ (get_status (update_blast t) = BLAST
     ↔ is_mine t = true ∧ covered t = false)
  ∧ (get_status (update_blast t) = MINE
     ↔ is_mine t = true ∧ covered t = true ∧ flagged t = false)
  ∧ (is_mine t = true → covered t = true → flagged t = true →
     get_status (update_blast t) = FLAGGED)
  ∧ (is_mine t = false → flagged t = false →
     get_status (update_blast t) = display_code t).
Proof.
  unfold well_valued, get_status, update_blast, update, display_code, is_mine,
    FLAGGED, DOWN, COVERED, WRONGFLAG, BLAST, MINE.
  intros Hv. tile_cases t; destruct (Z.eqb_spec tv (-1)); simpl;
    repeat split; intros; destruct_and?; try done; lia.
Qed.

Lemma update_blast_decodes_witness :
  (get_status (update_blast (set_value MINE (new_tile 0 0))) = WRONGFLAG
   ↔ flagged (set_value MINE (new_tile 0 0)) = true
     ∧ is_mine (set_value MINE (new_tile 0 0)) = false)
  ∧ (get_status (update_blast (set_value MINE (new_tile 0 0))) = BLAST
     ↔ is_mine (set_value MINE (new_tile 0 0)) = true
       ∧ covered (set_value MINE (new_tile 0 0)) = false)
  ∧ (get_status (update_blast (set_value MINE (new_tile 0 0))) = MINE
     ↔ is_mine (set_value MINE (new_tile 0 0)) = true
       ∧ covered (set_value MINE (new_tile 0 0)) = true
       ∧ flagged (set_value MINE (new_tile 0 0)) = false)
  ∧ (is_mine (set_value MINE (new_tile 0 0)) = true
     → covered (set_value MINE (new_tile 0 0)) = true
     → flagged (set_value MINE (new_tile 0 0)) = true
     → get_status (update_blast (set_value MINE (new_tile 0 0))) = FLAGGED)
  ∧ (is_mine (set_value MINE (new_tile 0 0)) = false
     → flagged (set_value MINE (new_tile 0 0)) = false
     → get_status (update_blast (set_value MINE (new_tile 0 0)))
       = display_code (set_value MINE (new_tile 0 0))).
Proof.
  apply (update_blast_decodes (set_value MINE (new_tile 0 0))).
  unfold well_valued. simpl. unfold MINE. lia.
Defined.

(** X3.  The win reveal.  [get_status] after [update_finish] is UNFLAGGED
    exactly for an unflagged mine, whatever else its state, and is never
    MINE; every other tile shows its ordinary code. *)
Theorem update_finish_decodes (t : Tile) :
  well_valued t →
  (get_status (update_finish t) = UNFLAGGED
   ↔ is_mine t = true ∧ flagged t = false)
  ∧ get_status (update_finish t) ≠ MINE
  ∧ (get_status (update_finish t) ≠ UNFLAGGED →
     get_status (update_finish t) = display_code t).
Proof.
  unfold well_valued, get_status, update_finish, update, display_code, is_mine,
    FLAGGED, DOWN, COVERED, UNFLAGGED, MINE.
  intros Hv. tile_cases t; destruct (Z.eqb_spec tv (-1)); simpl;
    repeat split; intros; destruct_and?; try done; lia.
Qed.

Lemma update_finish_decodes_witness :
  (get_status (update_finish (set_value MINE (new_tile 0 0))) = UNFLAGGED
   ↔ is_mine (set_value MINE (new_tile 0 0)) = true
     ∧ flagged (set_value MINE (new_tile 0 0)) = false)
  ∧ get_status (update_finish (set_value MINE (new_tile 0 0))) ≠ MINE
  ∧ (get_status (update_finish (set_value MINE (new_tile 0 0))) ≠ UNFLAGGED
     → get_status (update_finish (set_value MINE (new_tile 0 0)))
       = display_code (set_value MINE (new_tile 0 0))).
Proof.
  apply (update_finish_decodes (set_value MINE (new_tile 0 0))).
  unfold well_valued. simpl. unfold MINE. lia.
Defined.

(** X4.  The three refresh methods write [status] and nothing else, so
    each is idempotent, and a later [update] replaces what a reveal
    stored. *)
Theorem refresh_writes_status_only (t : Tile) :
  update t = set_status (get_status (update t)) t
  ∧ update_finish t = set_status (get_status (update_finish t)) t
  ∧ update_blast t = set_status (get_status (update_blast t)) t
  ∧ update (update t) = update t
  ∧ update_finish (update_finish t) = update_finish t
  ∧ update_blast (update_blast t) = update_blast t
  ∧ update (update_finish t) = update t
  ∧ update (update_blast t) = update t.
Proof.
  unfold get_status, update_finish, update_blast, update, display_code, is_mine.
  destruct t as [tx ty tv tf tc td ts tn tk]. cbn -[Z.eqb].
  destruct tf, tc, td; cbn -[Z.eqb]; destruct (tv =? MINE) eqn:E;
    repeat (cbn -[Z.eqb]; rewrite ?E); repeat split; reflexivity.
Qed.

(** ** Pressing and releasing *)

Lemma left_hold_idem t : left_hold (left_hold t) = left_hold t.
Proof. unfold left_hold. tile_cases t; done. Qed.

Lemma unhold_idem t : unhold (unhold t) = unhold t.
Proof. unfold unhold. tile_cases t; done. Qed.

Lemma iter_idem (f : Tile → Tile) n t :
  (∀ u, f (f u) = f u) → Nat.iter (S n) f t = f t.
Proof.
  intros Hf. induction n as [|n IH]; [done|].
  rewrite Nat.iter_succ, IH. apply Hf.
Qed.

Lemma count_occ_elem_of (l : list ref) q :
  (0 < count_occ Nat.eq_dec l q)%nat ↔ q ∈ l.
Proof. rewrite list_elem_of_In. symmetry. apply count_occ_In. Qed.

(** A loop [for t in l: t.m()] with an idempotent [m], preceded or not
    by [r.m()], applies [m] once to each tile it addresses. *)
Lemma lookup_for_each_idem (f : Tile → Tile) l (s : Board) q :
  (∀ u, f (f u) = f u) →
  for_each f l s !! q = (if bool_decide (q ∈ l) then f else id) <$> s !! q.
Proof.
  intros Hf. rewrite lookup_for_each_iter.
  destruct (count_occ Nat.eq_dec l q) as [|n] eqn:Hc.
  - rewrite bool_decide_eq_false_2; [by apply option_fmap_ext|].
    rewrite <- count_occ_elem_of. lia.
  - rewrite bool_decide_eq_true_2 by (rewrite <- count_occ_elem_of; lia).
    apply option_fmap_ext. intros u. by apply iter_idem.
Qed.

Lemma lookup_self_then_each (f : Tile → Tile) r (t : Tile) (s : Board) q :
  (∀ u, f (f u) = f u) →
  for_each f (neighbours t) (alter f r s) !! q
  = (if held r t q then f else id) <$> s !! q.
Proof.
  intros Hf. rewrite lookup_for_each_idem by done. unfold held.
  destruct (decide (q = r)) as [->|Hne].
  - rewrite lookup_alter_eq, <- option_fmap_compose.
    rewrite (bool_decide_eq_true_2 (r = r ∨ _)) by (by left).
    apply option_fmap_ext. intros u. simpl.
    case_bool_decide; [by rewrite Hf|done].
  - rewrite lookup_alter_ne by (by intros ->).
    assert (bool_decide (q = r ∨ q ∈ neighbours t)
            = bool_decide (q ∈ neighbours t)) as ->; [|done].
    apply bool_decide_ext. naive_solver.
Qed.

Lemma left_hold_set_down t :
  left_hold t = set_down (down t || (covered t && negb (flagged t))) t.
Proof. unfold left_hold. tile_cases t; done. Qed.

(** X5.  [double_hold] presses exactly the covered, unflagged tiles among
    the tile and its neighbours: each of them gets [down] set, and every
    other tile, and every other attribute, is left as it was; in
    particular a flagged or an open tile is never pressed. *)
Theorem double_hold_presses (s : Board) (r q : ref) (t tq : Tile) :
  s !! r = Some t → s !! q = Some tq →
  double_hold s r !! q
  = Some (set_down (down tq || (held r t q && covered tq && negb (flagged tq)))
                   tq).
Proof.
  intros Hr Hq. unfold double_hold. rewrite Hr.
  rewrite lookup_self_then_each by apply left_hold_idem. rewrite Hq. simpl.
  f_equal. destruct (held r t q); simpl; [apply left_hold_set_down|].
  rewrite orb_false_r. by destruct tq.
Qed.

Lemma double_hold_presses_witness :
  double_hold board1 0 !! 0%nat
  = Some (set_down
            (down (new_tile 0 0)
             || (held 0%nat (new_tile 0 0) 0%nat
                 && covered (new_tile 0 0) && negb (flagged (new_tile 0 0))))
            (new_tile 0 0)).
Proof.
  apply (double_hold_presses board1 0%nat 0%nat (new_tile 0 0)); reflexivity.
Defined.

Lemma unhold_left_hold t : down t = false → unhold (left_hold t) = t.
Proof. unfold unhold, left_hold. tile_cases t; done. Qed.

(** X6.  Releasing what [double_hold] pressed restores the board: on a
    board with no tile pressed, [double_hold] on a tile followed by
    [unhold] on the tile and on each of its neighbours leaves the store as
    it was. *)
Theorem release_restores (s : Board) (r : ref) (t : Tile) :
  s !! r = Some t → map_Forall (λ _ tq, down tq = false) s →
  for_each unhold (neighbours t) (alter unhold r (double_hold s r)) = s.
Proof.
  intros Hr Hup. apply map_eq. intros q.
  rewrite lookup_self_then_each by apply unhold_idem.
  unfold double_hold. rewrite Hr.
  rewrite lookup_self_then_each by apply left_hold_idem.
  unfold ref in *. destruct (s !! q) as [tq|] eqn:Hq; [simpl|done].
  f_equal. destruct (held r t q); [|done].
  apply unhold_left_hold. by apply (Hup q).
Qed.

Lemma release_restores_witness :
  for_each unhold
    (neighbours (set_value MINE
                   (set_neighbours (adjacent 3 3 1 1) (new_tile 1 1))))
    (alter unhold 4%nat (double_hold board3 4))
  = board3.
Proof.
  apply (release_restores board3 4%nat);
    [vm_compute; reflexivity|apply (bool_decide_unpack _); vm_compute; exact I].
Defined.

(** ** Toggling a flag *)

Lemma iter_bump_by k n t :
  Nat.iter n (bump k) t
  = set_neighbour_flags (neighbour_flags t + Z.of_nat n * k) t.
Proof.
  induction n as [|n IH].
  - destruct t. unfold set_neighbour_flags. simpl. f_equal. lia.
  - rewrite Nat.iter_succ, IH. unfold bump, set_neighbour_flags. simpl.
    f_equal. lia.
Qed.

(** What a plain toggle does to the tile [q]: its flag is set to [b] if
    it is the toggled tile, and its counter moves by [k] once for each
    time it occurs among the neighbours. *)
Lemma lookup_toggle (b : bool) k (s : Board) r l q :
  for_each (bump k) l (alter (set_flagged b) r s) !! q
  = (λ u, set_neighbour_flags
            (neighbour_flags u + Z.of_nat (count_occ Nat.eq_dec l q) * k)
            (if decide (q = r) then set_flagged b u else u)) <$> s !! q.
Proof.
  rewrite lookup_for_each_iter.
  destruct (decide (q = r)) as [->|Hne].
  - rewrite lookup_alter_eq, <- option_fmap_compose.
    apply option_fmap_ext. intros u. simpl. by rewrite iter_bump_by.
  - rewrite lookup_alter_ne by (by intros ->).
    apply option_fmap_ext. intros u. by rewrite iter_bump_by.
Qed.

Lemma toggle_back (b : bool) k k' (s : Board) r t :
  s !! r = Some t → flagged t = negb b → k + k' = 0 →
  for_each (bump k') (neighbours t)
    (alter (set_flagged (negb b)) r
       (for_each (bump k) (neighbours t) (alter (set_flagged b) r s)))
  = s.
Proof.
  intros Hr Hfl Hk. apply map_eq. intros q. rewrite !lookup_toggle.
  unfold ref in *. destruct (s !! q) as [tq|] eqn:Hq; [simpl|done].
  f_equal. destruct (decide (q = r)) as [->|Hne].
  - assert (tq = t) as -> by congruence.
    destruct t. simpl in *. subst. unfold set_neighbour_flags, set_flagged.
    simpl. f_equal. lia.
  - destruct tq. unfold set_neighbour_flags. simpl. f_equal. lia.
Qed.

(** X7.  [flag] is its own inverse on a covered tile: whatever the
    easy-flag switches, a first call returns the tile itself and a second
    call returns the tile itself and leaves the store exactly as it was
    before the first, counters included. *)
Theorem flag_twice_restores (e1 e2 : bool) (s : Board) (r : ref) (t : Tile) :
  s !! r = Some t → covered t = true →
  (flag e1 s r).2 = {[r]}
  ∧ flag e2 (flag e1 s r).1 r = (s, {[r]}).
Proof.
  intros Hr Hcov. unfold flag at 1 3. rewrite Hr, Hcov.
  destruct (flagged t) eqn:Hfl; simpl; (split; [done|]).
  - pose proof (toggle_back false (-1) 1 s r t Hr Hfl eq_refl) as Hback.
    simpl in Hback.
    unfold flag. rewrite lookup_toggle. unfold ref in *. rewrite Hr. simpl.
    rewrite decide_True by done. simpl. rewrite Hcov. by rewrite Hback.
  - pose proof (toggle_back true 1 (-1) s r t Hr Hfl eq_refl) as Hback.
    simpl in Hback.
    unfold flag. rewrite lookup_toggle. unfold ref in *. rewrite Hr. simpl.
    rewrite decide_True by done. simpl. by rewrite Hback.
Qed.

Lemma flag_twice_restores_witness :
  (flag true board1 0).2 = {[0%nat]}
  ∧ flag false (flag true board1 0).1 0 = (board1, {[0%nat]}).
Proof.
  apply (flag_twice_restores true false board1 0%nat (new_tile 0 0));
    reflexivity.
Defined.

Lemma flag_lookup_self easy_flag (s : Board) r t :
  s !! r = Some t → covered t = true →
  ∃ t1, (flag easy_flag s r).1 !! r = Some t1
        ∧ flagged t1 = negb (flagged t) ∧ covered t1 = true ∧ down t1 = down t.
Proof.
  intros Hr Hcov. unfold flag. rewrite Hr, Hcov.
  destruct (flagged t); simpl; rewrite lookup_toggle; unfold ref in *;
    rewrite Hr; simpl; rewrite decide_True by done; eauto.
Qed.

(** X8.  A flag set while the tile is pressed keeps it pressed: after
    [left_hold], [flag], [unhold] on a covered unflagged tile the tile is
    flagged and still down, because [unhold] skips flagged tiles; taking
    the flag off again leaves a covered, unflagged tile that is down. *)
Theorem press_flag_release_stays_down (s : Board) (r : ref) (t : Tile) :
  s !! r = Some t → covered t = true → flagged t = false →
  ∃ s' t',
    run_ops [OpLeftHold r; OpFlag false r; OpUnhold r; OpFlag false r] s = Some s'
    ∧ s' !! r = Some t'
    ∧ down t' = true ∧ flagged t' = false ∧ covered t' = true
    ∧ display_code t' = DOWN.
Proof.
  intros Hr Hcov Hfl. simpl.
  set (s1 := alter left_hold r s).
  assert (s1 !! r = Some (set_down true t)) as H1.
  { unfold s1. rewrite lookup_alter_eq, Hr. simpl. f_equal.
    unfold left_hold. by rewrite Hcov, Hfl. }
  destruct (flag_lookup_self false s1 r _ H1 Hcov) as (t2 & H2 & Hf2 & Hc2 & Hd2).
  destruct (flag false s1 r) as [s2 v2]. simpl in *.
  set (s3 := alter unhold r s2).
  assert (s3 !! r = Some t2) as H3.
  { unfold s3. rewrite lookup_alter_eq, H2. simpl. f_equal.
    unfold unhold. by rewrite Hf2, Hfl. }
  destruct (flag_lookup_self false s3 r _ H3 Hc2) as (t4 & H4 & Hf4 & Hc4 & Hd4).
  destruct (flag false s3 r) as [s4 v4]. simpl in *.
  exists s4, t4. rewrite Hf2, Hfl in Hf4. rewrite Hd2 in Hd4.
  repeat split; try done.
  unfold display_code. by rewrite Hf4, Hd4.
Qed.

Lemma press_flag_release_stays_down_witness :
  ∃ s' t',
    run_ops [OpLeftHold 0; OpFlag false 0; OpUnhold 0; OpFlag false 0] board3
    = Some s'
    ∧ s' !! 0%nat = Some t'
    ∧ down t' = true ∧ flagged t' = false ∧ covered t' = true
    ∧ display_code t' = DOWN.
Proof.
  apply (press_flag_release_stays_down board3 0%nat
           (set_value 1 (set_neighbours (adjacent 3 3 0 0) (new_tile 0 0))));
    vm_compute; reflexivity.
Defined.

(** ** Laying mines *)

Lemma lookup_set_mine (s : Board) r t q :
  s !! r = Some t → NoDup (neighbours t) →
  set_mine s r !! q
  = (λ u, (if bool_decide (q ∈ neighbours t) then count_mine else id)
            (if decide (q = r) then set_value MINE u else u)) <$> s !! q.
Proof.
  intros Hr Hnd. unfold set_mine. rewrite Hr, lookup_for_each by done.
  destruct (decide (q = r)) as [->|Hne].
  - rewrite lookup_alter_eq, <- option_fmap_compose. by apply option_fmap_ext.
  - rewrite lookup_alter_ne by (by intros ->). by apply option_fmap_ext.
Qed.

Lemma wired_set_mine (s : Board) r : wired s → wired (set_mine s r).
Proof.
  intros Hw. eapply wired_tilewise; [|done].
  unfold set_mine. destruct (s !! r) as [t|]; [|by apply tilewise_refl].
  apply (tilewise_trans same_wiring _ (alter (set_value MINE) r s)).
  - by apply tilewise_alter.
  - apply tilewise_for_each; [apply _..|].
    intros u. unfold count_mine, same_wiring. by destruct (negb (is_mine u)).
Qed.

Lemma is_mine_count_mine u :
  0 ≤ value u → is_mine (count_mine u) = false.
Proof.
  unfold count_mine, is_mine, MINE. intros Hv.
  destruct (Z.eqb_spec (value u) (-1)); simpl; [lia|].
  apply Z.eqb_neq. lia.
Qed.

(** After [set_mine] on [r], the mines are [r] and the mines there were. *)
Lemma tile_mine_set_mine (s : Board) r t n :
  wired s → values_consistent s → s !! r = Some t →
  tile_mine (set_mine s r) n = tile_mine s n || bool_decide (n = r).
Proof.
  intros Hw Hc Hr. destruct (Hw r t Hr) as [Hnd _].
  unfold tile_mine. rewrite (lookup_set_mine s r t n Hr Hnd).
  unfold ref in *. destruct (s !! n) as [tn|] eqn:Hn; simpl.
  2: { case_bool_decide; [by subst; rewrite Hr in Hn|done]. }
  destruct (decide (n = r)) as [->|Hne]; simpl.
  - rewrite (bool_decide_eq_true_2 (r = r)), orb_true_r by done.
    case_bool_decide; [|done]. unfold count_mine. by simpl.
  - rewrite (bool_decide_eq_false_2 (n = r)), orb_false_r by done.
    case_bool_decide; [|done]. simpl.
    destruct (is_mine tn) eqn:Hm.
    + unfold count_mine. by rewrite Hm.
    + apply is_mine_count_mine. rewrite (Hc n tn Hn Hm). lia.
Qed.

Lemma set_mine_consistent (s : Board) r t :
  wired s → values_consistent s → s !! r = Some t → is_mine t = false →
  values_consistent (set_mine s r).
Proof.
  intros Hw Hc Hr Hm q tq' Hq' Hm'.
  destruct (Hw r t Hr) as [Hnd _].
  rewrite (lookup_set_mine s r t q Hr Hnd) in Hq'.
  unfold ref in *. destruct (s !! q) as [tq|] eqn:Hq; [|done].
  simpl in Hq'. injection Hq' as <-.
  destruct (decide (q = r)) as [->|Hne].
  { exfalso. case_bool_decide; unfold count_mine in Hm'; by simpl in Hm'. }
  destruct (Hw q tq Hq) as [Hndq _].
  assert (is_mine tq = false) as Hmq.
  { destruct (is_mine tq) eqn:E; [|done]. revert Hm'. unfold count_mine, id.
    case_bool_decide; cbn beta; rewrite ?E; cbn [negb]; congruence. }
  assert (bool_decide (r ∈ neighbours tq) = bool_decide (q ∈ neighbours t)) as Hsym.
  { apply bool_decide_ext. split; intros Hin.
    - destruct (wired_lookup s q tq r Hw Hq Hin) as (t' & Hr' & ?).
      unfold ref in *. congruence.
    - destruct (wired_lookup s r t q Hw Hr Hin) as (t' & Hq'' & ?).
      unfold ref in *. congruence. }
  assert (Z.of_nat (length (List.filter (tile_mine (set_mine s r)) (neighbours tq)))
          = Z.of_nat (length (List.filter (tile_mine s) (neighbours tq)))
            + (if bool_decide (r ∈ neighbours tq) then 1 else 0)) as Hcount.
  { apply (count_toggle (tile_mine s) _ r true); [done| | |].
    - intros n Hn. rewrite (tile_mine_set_mine s r t n Hw Hc Hr).
      by rewrite bool_decide_eq_false_2, orb_false_r.
    - unfold tile_mine. unfold ref in *. by rewrite Hr, Hm.
    - rewrite (tile_mine_set_mine s r t r Hw Hc Hr).
      by rewrite bool_decide_eq_true_2, orb_true_r. }
  pose proof (Hc q tq Hq Hmq) as Hv. unfold mined_neighbours in *.
  rewrite Hsym in Hcount. revert Hcount.
  repeat case_bool_decide; try done; intros Hcount.
  - unfold count_mine. rewrite Hmq. simpl.
    etrans; [|exact (eq_sym Hcount)]. f_equal. exact Hv.
  - simpl. etrans; [|exact (eq_sym Hcount)]. rewrite Z.add_0_r. exact Hv.
Qed.

(** X9.  Laying mines one at a time with [set_mine] on distinct tiles of
    a wired board whose numbers are right keeps them right: afterwards
    the mines are the old ones and the new ones, and every tile that is
    not a mine carries the number of its neighbours that are. *)
Theorem lay_mines_consistent (rs : list ref) (s : Board) :
  wired s → values_consistent s → NoDup rs →
  Forall (λ r, is_Some (s !! r) ∧ tile_mine s r = false) rs →
  wired (lay_mines rs s)
  ∧ values_consistent (lay_mines rs s)
  ∧ ∀ n, tile_mine (lay_mines rs s) n = tile_mine s n || bool_decide (n ∈ rs).
Proof.
  revert s. induction rs as [|r rs IH]; intros s Hw Hc Hnd Hall.
  - split; [done|split; [done|]]. intros n.
    rewrite bool_decide_eq_false_2, orb_false_r; [done|]. apply not_elem_of_nil.
  - apply NoDup_cons in Hnd as [Hr Hnd].
    apply Forall_cons in Hall as [[[t Ht] Hm] Hall].
    assert (is_mine t = false) as Hmt by (unfold tile_mine in Hm; by rewrite Ht in Hm).
    unfold lay_mines. simpl. fold (lay_mines rs (set_mine s r)).
    destruct (IH (set_mine s r)) as (Hw' & Hc' & Hm'); [| |done| |].
    + by apply wired_set_mine.
    + by eapply set_mine_consistent.
    + rewrite Forall_forall in Hall |- *. intros n Hn.
      destruct (Hall n Hn) as [[tn Htn] Hmn]. split.
      * destruct (Hw r t Ht) as [Hndt _].
        rewrite (lookup_set_mine s r t n Ht Hndt). unfold ref in *.
        rewrite Htn. by eexists.
      * rewrite (tile_mine_set_mine s r t n Hw Hc Ht), Hmn.
        rewrite bool_decide_eq_false_2; [done|]. by intros ->.
    + split; [done|split; [done|]]. intros n.
      rewrite Hm', (tile_mine_set_mine s r t n Hw Hc Ht).
      rewrite <- orb_assoc. f_equal.
      destruct (decide (n = r)) as [->|Hne].
      * rewrite bool_decide_eq_true_2 by done.
        by rewrite (bool_decide_eq_true_2 (r ∈ r :: rs)) by set_solver.
      * rewrite (bool_decide_eq_false_2 (n = r)) by done. simpl.
        apply bool_decide_ext. set_solver.
Qed.

Lemma lay_mines_consistent_witness :
  wired (lay_mines [4; 0]%nat (grid 3 3))
  ∧ values_consistent (lay_mines [4; 0]%nat (grid 3 3))
  ∧ ∀ n, tile_mine (lay_mines [4; 0]%nat (grid 3 3)) n
         = tile_mine (grid 3 3) n || bool_decide (n ∈ [4; 0]%nat).
Proof.
  apply (lay_mines_consistent [4; 0]%nat (grid 3 3));
    apply (bool_decide_unpack _); vm_compute; exact I.
Defined.

(** X10.  [set_mine] has no guard against a tile that is a mine already:
    on a wired board whose numbers are right, calling it again on a mine
    raises the number of each neighbour that is not a mine once more,
    while the mines stay the same, so the numbers are wrong afterwards. *)
Theorem set_mine_again_overcounts (s : Board) (r n : ref) (t tn : Tile) :
  wired s → values_consistent s →
  s !! r = Some t → is_mine t = true →
  n ∈ neighbours t → s !! n = Some tn → is_mine tn = false →
  (∃ tn', set_mine s r !! n = Some tn'
          ∧ value tn' = value tn + 1
          ∧ mined_neighbours (set_mine s r) tn' = mined_neighbours s tn)
  ∧ ¬ values_consistent (set_mine s r).
Proof.
  intros Hw Hc Hr Hm Hn Hlk Hmn.
  destruct (Hw r t Hr) as [Hnd _].
  assert (n ≠ r) as Hne.
  { intros ->. unfold ref in *. congruence. }
  assert (∀ m, tile_mine (set_mine s r) m = tile_mine s m) as Hsame.
  { intros m. rewrite (tile_mine_set_mine s r t m Hw Hc Hr).
    case_bool_decide as Hmr; [subst m|apply orb_false_r].
    unfold tile_mine. unfold ref in *. by rewrite Hr, Hm. }
  assert (set_mine s r !! n = Some (set_value (value tn + 1) tn)) as Hlk'.
  { rewrite (lookup_set_mine s r t n Hr Hnd). unfold ref in *. rewrite Hlk.
    simpl. rewrite decide_False, bool_decide_eq_true_2 by done.
    unfold count_mine. by rewrite Hmn. }
  assert (mined_neighbours (set_mine s r) (set_value (value tn + 1) tn)
          = mined_neighbours s tn) as Hmined.
  { unfold mined_neighbours. simpl. apply List.filter_ext. intros m. apply Hsame. }
  split; [by eexists|].
  intros Hc'. pose proof (Hc n tn Hlk Hmn) as Hv.
  assert (is_mine (set_value (value tn + 1) tn) = false) as Hm'.
  { unfold is_mine, MINE. simpl. apply Z.eqb_neq. lia. }
  pose proof (Hc' n _ Hlk' Hm') as Hv'. rewrite Hmined in Hv'. simpl in Hv'. lia.
Qed.

Lemma set_mine_again_overcounts_witness :
  (∃ tn', set_mine board3 4 !! 0%nat = Some tn'
          ∧ value tn'
            = value (set_value 1 (set_neighbours (adjacent 3 3 0 0) (new_tile 0 0)))
              + 1
          ∧ mined_neighbours (set_mine board3 4) tn'
            = mined_neighbours board3
                (set_value 1 (set_neighbours (adjacent 3 3 0 0) (new_tile 0 0))))
  ∧ ¬ values_consistent (set_mine board3 4).
Proof.
  apply (set_mine_again_overcounts board3 4%nat 0%nat
           (set_value MINE (set_neighbours (adjacent 3 3 1 1) (new_tile 1 1))));
    try (apply (bool_decide_unpack _); vm_compute; exact I);
    vm_compute; reflexivity.
Defined.

(** ** Starting over *)

#[local] Instance same_recovered_refl : Reflexive same_recovered.
Proof. intros t. reflexivity. Qed.

#[local] Instance same_recovered_trans : Transitive same_recovered.
Proof. intros t1 t2 t3 H12 H23. unfold same_recovered in *. congruence. Qed.

Lemma same_recovered_write f t : core_write f → same_recovered t (f t).
Proof.
  intros []; unfold same_recovered; try done.
  - unfold left_hold. by destruct (_ && _).
  - unfold unhold. by destruct (negb _).
Qed.

Lemma recover_pristine t : pristine t → recover t = t.
Proof.
  unfold pristine, recover. destruct t. simpl. intros (-> & -> & -> & -> & ->).
  done.
Qed.

(** X11.  [recover] on every tile undoes a whole session: from a board
    whose tiles are all in the state [__init__] leaves them in, whatever
    operations were run, recovering each tile gives the first board back,
    numbers and wiring included. *)
Theorem recover_undoes_session (os : list op) (s : Board) :
  map_Forall (λ _ t, pristine t) s →
  ∃ s', run_ops os s = Some s' ∧ recover <$> s' = s.
Proof.
  intros Hp. destruct (run_ops_final os s) as [s' Hrun]. exists s'.
  split; [done|]. apply map_eq. intros r. rewrite lookup_fmap.
  pose proof (tilewise_run_ops same_recovered same_recovered_write os s s' Hrun r)
    as Hrel.
  inversion Hrel as [t t' Hrec Hs Hs'|]; [simpl|done].
  f_equal. rewrite Hrec. apply recover_pristine. by apply (Hp r).
Qed.

Lemma recover_undoes_session_witness :
  ∃ s', run_ops [OpOpen false false 0; OpFlag false 4; OpFlag true 0;
                 OpDoubleHold 8; OpDouble true 0; OpOpen true false 4] board3
        = Some s'
        ∧ recover <$> s' = board3.
Proof.
  apply (recover_undoes_session _ board3).
  apply (bool_decide_unpack _). vm_compute. exact I.
Defined.

(** X12.  Recovering every tile gives a board ready for a new game from
    any state: no tile is flagged, open or pressed, every counter is
    zero, so the counters are right again even where easy-flag had
    spoiled them, and coordinates, values and wiring are as they were. *)
Theorem recover_all_ready (s : Board) :
  map_Forall (λ _ t, pristine t) (recover <$> s)
  ∧ fresh (recover <$> s)
  ∧ flags_consistent (recover <$> s)
  ∧ tilewise same_static s (recover <$> s).
Proof.
  assert (∀ r t', (recover <$> s) !! r = Some t' → ∃ t, t' = recover t) as Hrec.
  { intros r t'. rewrite lookup_fmap. destruct (s !! r) as [t|]; [|done].
    intros [= <-]. by exists t. }
  split; [|split; [|split]].
  - intros r t' Hr. destruct (Hrec r t' Hr) as [t ->]. by repeat split.
  - intros r t' Hr. by destruct (Hrec r t' Hr) as [t ->].
  - intros r t' Hr. destruct (Hrec r t' Hr) as [t ->]. simpl.
    unfold flagged_neighbours. simpl.
    induction (neighbours t) as [|n l IH]; [done|]. simpl.
    assert (tile_flagged (recover <$> s) n = false) as ->; [|done].
    unfold tile_flagged. rewrite lookup_fmap. by destruct (s !! n).
  - intros r. rewrite lookup_fmap. destruct (s !! r); constructor.
    by repeat split.
Qed.

(** ** What play never changes *)

#[local] Instance same_static_refl : Reflexive same_static.
Proof. intros t. by repeat split. Qed.

#[local] Instance same_static_trans : Transitive same_static.
Proof.
  intros t1 t2 t3 H12 H23. unfold same_static in *.
  destruct_and!. repeat split; congruence.
Qed.

Lemma same_static_write f t : core_write f → same_static t (f t).
Proof.
  intros []; unfold same_static; simpl; try done.
  - unfold left_hold. by destruct (_ && _).
  - unfold unhold. by destruct (negb _).
Qed.

(** X13.  No session of core operations creates or removes a tile or
    writes a coordinate, a value or a neighbour set: mine layout, numbers
    and wiring are those of board construction throughout. *)
Theorem session_keeps_layout (os : list op) (s : Board) :
  ∃ s', run_ops os s = Some s' ∧ tilewise same_static s s'.
Proof.
  destruct (run_ops_final os s) as [s' Hrun]. exists s'. split; [done|].
  by apply (tilewise_run_ops same_static same_static_write os).
Qed.

#[local] Instance same_but_flags_refl : Reflexive same_but_flags.
Proof. intros t. by destruct t. Qed.

#[local] Instance same_but_flags_trans : Transitive same_but_flags.
Proof.
  intros t1 t2 t3. unfold same_but_flags, set_neighbour_flags, set_flagged.
  destruct t1, t2, t3. simpl. intros [=] [=]. by subst.
Qed.

#[local] Instance same_but_down_refl : Reflexive same_but_down.
Proof. intros t. by destruct t. Qed.

#[local] Instance same_but_down_trans : Transitive same_but_down.
Proof.
  intros t1 t2 t3. unfold same_but_down, set_down.
  destruct t1, t2, t3. simpl. intros [=] [=]. by subst.
Qed.

Lemma same_but_flags_plant (s : Board) r :
  tilewise same_but_flags s (plant_flag s r).
Proof.
  unfold plant_flag. destruct (s !! r) as [t|]; [|apply tilewise_refl, _].
  apply (tilewise_trans same_but_flags _ (alter (set_flagged true) r s)).
  - apply tilewise_alter; [apply _|]. intros u. by destruct u.
  - apply tilewise_for_each; [apply _..|]. intros u. by destruct u.
Qed.

(** X14.  The footprint of the other operations: [flag], with or without
    easy-flag, writes [flagged] and [neighbour_flags] only, and
    [left_hold], [double_hold] and [unhold] write [down] only; neither
    opens a tile, and neither touches the stored display code. *)
Theorem flag_and_hold_footprints (easy_flag : bool) (s : Board) (r : ref) :
  tilewise same_but_flags s (flag easy_flag s r).1
  ∧ tilewise same_but_down s (alter left_hold r s)
  ∧ tilewise same_but_down s (double_hold s r)
  ∧ tilewise same_but_down s (alter unhold r s).
Proof.
  assert (∀ u, same_but_down u (left_hold u)) as Hl.
  { intros u. unfold left_hold. destruct u. simpl. by destruct (_ && _). }
  assert (∀ u, same_but_down u (unhold u)) as Hu.
  { intros u. unfold unhold. destruct u. simpl. by destruct (negb _). }
  split; [|split; [|split]].
  - unfold flag. destruct (s !! r) as [t|]; [|apply tilewise_refl, _].
    destruct (flagged t); [|destruct (covered t)]; simpl.
    + apply (tilewise_trans same_but_flags _ (alter (set_flagged false) r s)).
      * apply tilewise_alter; [apply _|]. intros u. by destruct u.
      * apply tilewise_for_each; [apply _..|]. intros u. by destruct u.
    + apply (tilewise_trans same_but_flags _ (alter (set_flagged true) r s)).
      * apply tilewise_alter; [apply _|]. intros u. by destruct u.
      * apply tilewise_for_each; [apply _..|]. intros u. by destruct u.
    + destruct easy_flag; [|apply tilewise_refl, _].
      destruct (_ =? _); [simpl|apply tilewise_refl, _].
      generalize (List.filter (tile_covered s) (neighbours t)). intros l.
      clear t. revert s. induction l as [|n l IH]; intros s;
        [apply tilewise_refl, _|].
      simpl. eapply tilewise_trans; [apply _|apply same_but_flags_plant|apply IH].
  - apply tilewise_alter; [apply _|done].
  - apply tilewise_double_hold; [apply _..|done].
  - apply tilewise_alter; [apply _|done].
Qed.

(** ** More on opening *)

Lemma tile_openable_opened ch (s : Board) q :
  tile_openable (opened ch s) q = tile_openable s q && negb (bool_decide (q ∈ ch)).
Proof.
  unfold tile_openable. rewrite lookup_opened.
  destruct (s !! q) as [t|]; [simpl|done].
  case_bool_decide; [|by rewrite andb_true_r].
  unfold blocked. simpl. by rewrite orb_true_r, andb_false_r.
Qed.

Lemma tile_covered_opened ch (s : Board) q :
  tile_covered (opened ch s) q = tile_covered s q && negb (bool_decide (q ∈ ch)).
Proof.
  unfold tile_covered. rewrite lookup_opened.
  destruct (s !! q) as [t|]; [simpl|done].
  case_bool_decide; [by rewrite andb_false_r|by rewrite andb_true_r].
Qed.

(** X15.  The flood fill in general, in either mode and on a board in
    play: [open] returns exactly the tiles that can be reached from the
    seed by stepping from a spreading tile to a neighbour, through tiles
    that are covered and unflagged; it uncovers exactly those and touches
    nothing else.  A tile spreads when its value is 0 or, in BFS mode,
    equals its flag counter. *)
Theorem open_opens_reachable (BFS : bool) (s : Board) (r0 : ref) :
  ∃ ch, open BFS false s r0 = Ret (opened ch s) ch
        ∧ (∀ r, r ∈ ch ↔ reach BFS s r0 r)
        ∧ (∀ r, tile_covered (opened ch s) r
                = tile_covered s r && negb (bool_decide (r ∈ ch)))
        ∧ (∀ r, r ∈ ch → tile_covered s r = true ∧ tile_flagged s r = false).
Proof.
  destruct (open_spec BFS false s r0) as (ch & Ho & Hch).
  exists ch. split; [done|]. split; [done|]. split.
  - intros r. apply tile_covered_opened.
  - intros r Hr%Hch%reach_openable.
    destruct (openable_lookup _ _ Hr) as (t & Ht & Hb).
    unfold tile_covered, tile_flagged. rewrite Ht.
    unfold blocked in Hb. by destruct (flagged t), (covered t).
Qed.

Lemma open_blocked_seed BFS test_op (s : Board) r :
  tile_openable s r = false → open BFS test_op s r = Ret s ∅.
Proof.
  intros Hr. unfold open, work. cbn [length Nat.add open_loop].
  assert (basic_open BFS s r = (s, false, [])) as ->.
  { unfold basic_open, tile_openable in *. destruct (s !! r) as [t|]; [|done].
    apply negb_false_iff in Hr. by rewrite Hr. }
  cbn [app open_loop]. by destruct test_op, (pending s).
Qed.

(** X16.  Opening is idempotent: after [open] on a seed, a second [open]
    on the same seed, in any mode, returns the empty set and leaves the
    store as the first call left it. *)
Theorem open_twice (BFS BFS' test_op test_op' : bool) (s : Board) (r : ref) :
  ∃ s1 v, open BFS test_op s r = Ret s1 v
          ∧ open BFS' test_op' s1 r = Ret s1 ∅.
Proof.
  destruct (open_spec BFS test_op s r) as (ch & Ho & Hch).
  eexists _, _. split; [done|]. apply open_blocked_seed.
  rewrite tile_openable_opened.
  destruct (tile_openable s r) eqn:Hr; [simpl|done].
  rewrite bool_decide_eq_true_2; [done|]. apply Hch. by constructor.
Qed.

Lemma spreads_mono t : spreads false t = true → spreads true t = true.
Proof.
  unfold spreads. rewrite orb_false_r. intros ->. reflexivity.
Qed.

Lemma reach_mode_mono (s : Board) r0 r :
  reach false s r0 r → reach true s r0 r.
Proof.
  induction 1 as [Ho|r1 t r' _ IH Hlk Hsp Hnb Ho]; [by constructor|].
  eapply reach_next; [done|done|by apply spreads_mono|done|done].
Qed.

(** X17.  The chord-while-opening mode only adds: from the same seed on
    the same board, [open] with BFS on returns every tile that [open]
    with BFS off returns. *)
Theorem open_bfs_opens_more (s : Board) (r : ref) :
  ∃ ch ch', open false false s r = Ret (opened ch s) ch
            ∧ open true false s r = Ret (opened ch' s) ch'
            ∧ ch ⊆ ch'.
Proof.
  destruct (open_spec false false s r) as (ch & Ho & Hch).
  destruct (open_spec true false s r) as (ch' & Ho' & Hch').
  exists ch, ch'. split; [done|]. split; [done|].
  intros q Hq. by apply Hch', reach_mode_mono, Hch.
Qed.

(** X18.  No propagation from a tile that does not spread: [open] on a
    covered, unflagged tile whose value is not 0 (and, in BFS mode, not
    its flag counter either) uncovers that tile and returns it alone; a
    mine is such a tile. *)
Theorem open_numbered_alone (BFS : bool) (s : Board) (r : ref) (t : Tile) :
  s !! r = Some t → blocked t = false → spreads BFS t = false →
  open BFS false s r = Ret (alter (set_covered false) r s) {[r]}.
Proof.
  intros Hr Hb Hsp.
  destruct (open_spec BFS false s r) as (ch & Ho & Hch).
  assert (ch = {[r]}) as ->.
  { apply set_eq. intros q. rewrite Hch, elem_of_singleton. split.
    - induction 1 as [Ho'|r1 t1 r' _ IH Hlk Hsp' Hnb Ho']; [done|].
      subst r1. unfold ref in *. congruence.
    - intros ->. constructor. unfold tile_openable. by rewrite Hr, Hb. }
  rewrite Ho. f_equal. rewrite <- (opened_empty s) at 2.
  rewrite alter_opened. f_equal. set_solver.
Qed.

Lemma open_numbered_alone_witness :
  open false false board3 4 = Ret (alter (set_covered false) 4%nat board3) {[4%nat]}.
Proof.
  apply (open_numbered_alone false board3 4%nat
           (set_value MINE (set_neighbours (adjacent 3 3 1 1) (new_tile 1 1))));
    vm_compute; reflexivity.
Defined.

(** ** More on chording *)

Lemma foldl_union_list (c : gset ref) cs : foldl (∪) c cs = c ∪ ⋃ cs.
Proof.
  revert c. induction cs as [|d cs IH]; intros c; simpl; [set_solver|].
  rewrite IH. set_solver.
Qed.

(** The calls of the generator, taken together. *)
Lemma open_each_spec BFS l : ∀ s : Board,
  ∃ cs, open_each BFS s l = Some (opened (⋃ cs) s, cs)
        ∧ length cs = length l
        ∧ (∀ q, q ∈ ⋃ cs → tile_openable s q = true)
        ∧ (∀ n, n ∈ l → tile_openable s n = true → n ∈ ⋃ cs).
Proof.
  induction l as [|r l IH]; intros s.
  - exists []. simpl. rewrite opened_empty. repeat split; set_solver.
  - destruct (open_spec BFS false s r) as (ch & Ho & Hch).
    destruct (IH (opened ch s)) as (cs & He & Hlen & Hin & Hnb).
    exists (ch :: cs). simpl. rewrite Ho, He, opened_opened.
    split; [done|]. split; [by rewrite Hlen|]. split.
    + intros q [Hq|Hq]%elem_of_union.
      * by apply Hch, reach_openable in Hq.
      * apply Hin in Hq. rewrite tile_openable_opened in Hq.
        by apply andb_true_iff in Hq as [? _].
    + intros n Hn Ho'. apply elem_of_union.
      destruct (decide (n ∈ ch)) as [?|Hnin]; [by left|].
      apply elem_of_cons in Hn as [->|Hn].
      * left. apply Hch. by constructor.
      * right. apply Hnb; [done|]. rewrite tile_openable_opened, Ho'.
        by rewrite bool_decide_eq_false_2.
Qed.

(** X19.  Chording a satisfied tile.  On an open tile whose value equals
    its flag counter and that has at least one neighbour, [double]
    returns, the returned set is exactly the set of tiles it uncovered,
    every tile in it was covered and unflagged, every covered unflagged
    neighbour is in it, and no other tile is touched. *)
Theorem double_opens_neighbours (BFS : bool) (s : Board) (r : ref) (t : Tile) :
  s !! r = Some t → chord_ready t = true → neighbours t ≠ [] →
  ∃ v, double BFS s r = Ret (opened v s) v
       ∧ (∀ q, q ∈ v → tile_openable s q = true)
       ∧ (∀ n, n ∈ neighbours t → tile_openable s n = true → n ∈ v)
       ∧ (∀ q, tile_covered (opened v s) q
               = tile_covered s q && negb (bool_decide (q ∈ v))).
Proof.
  intros Hr Hc Hne. unfold double. rewrite Hr, Hc.
  destruct (open_each_spec BFS (neighbours t) s) as (cs & -> & Hlen & Hin & Hnb).
  destruct cs as [|c cs]; [by destruct (neighbours t)|].
  exists (⋃ (c :: cs)). unfold set_union. rewrite foldl_union_list.
  split; [done|]. split; [done|]. split; [done|].
  intros q. apply tile_covered_opened.
Qed.

Lemma double_opens_neighbours_witness :
  ∃ v, double false (opened {[12%nat]} board5) 12
       = Ret (opened v (opened {[12%nat]} board5)) v
       ∧ (∀ q, q ∈ v → tile_openable (opened {[12%nat]} board5) q = true)
       ∧ (∀ n, n ∈ neighbours (set_covered false
                                 (set_neighbours (adjacent 5 5 2 2) (new_tile 2 2)))
               → tile_openable (opened {[12%nat]} board5) n = true → n ∈ v)
       ∧ (∀ q, tile_covered (opened v (opened {[12%nat]} board5)) q
               = tile_covered (opened {[12%nat]} board5) q
                 && negb (bool_decide (q ∈ v))).
Proof.
  apply (double_opens_neighbours false (opened {[12%nat]} board5) 12%nat
           (set_covered false (set_neighbours (adjacent 5 5 2 2) (new_tile 2 2))));
    [vm_compute; reflexivity|vm_compute; reflexivity|].
  vm_compute. discriminate.
Defined.

(** ** More on flagging *)

Lemma elem_of_list_filter (f : ref → bool) l n :
  n ∈ List.filter f l ↔ n ∈ l ∧ f n = true.
Proof. rewrite !list_elem_of_In. apply filter_In. Qed.

Lemma tile_flagged_plant_flag_self (s : Board) a :
  is_Some (s !! a) → tile_flagged (plant_flag s a) a = true.
Proof.
  intros [ta Ha]. unfold tile_flagged.
  rewrite (lookup_plant_flag s a ta a Ha). unfold ref in *. rewrite Ha. simpl.
  unfold planted. rewrite iter_bump. by rewrite decide_True.
Qed.

Lemma plant_flag_is_Some (s : Board) a q :
  is_Some (s !! q) → is_Some (plant_flag s a !! q).
Proof.
  intros Hq. destruct (s !! a) as [ta|] eqn:Ha.
  - rewrite (lookup_plant_flag s a ta q Ha). by apply fmap_is_Some.
  - unfold plant_flag. by rewrite Ha.
Qed.

Lemma plant_flags_flagged l : ∀ (s : Board) n,
  (∀ a, a ∈ l → is_Some (s !! a)) →
  tile_flagged (foldl plant_flag s l) n = tile_flagged s n || bool_decide (n ∈ l).
Proof.
  induction l as [|a l IH]; intros s n Hall.
  - rewrite (bool_decide_eq_false_2 (n ∈ [])), orb_false_r; [done|].
    apply not_elem_of_nil.
  - cbn [foldl]. rewrite IH.
    2: { intros b Hb. apply plant_flag_is_Some, Hall. by right. }
    destruct (decide (n = a)) as [->|Hne].
    + rewrite tile_flagged_plant_flag_self by (apply Hall; by left).
      rewrite (bool_decide_eq_true_2 (a ∈ a :: l)) by (by left).
      by rewrite orb_true_r.
    + rewrite tile_flagged_plant_flag by done. f_equal.
      apply bool_decide_ext. set_solver.
Qed.

(** X20.  The easy-flag deduction.  On an open, unflagged tile whose
    value equals the number of its covered neighbours, [flag] with
    easy-flag on returns exactly the covered neighbours that were not
    flagged yet, and afterwards the flagged tiles are those flagged before
    together with all covered neighbours. *)
Theorem easy_flag_deduction (s : Board) (r : ref) (t : Tile) :
  s !! r = Some t → flagged t = false → covered t = false →
  value t = Z.of_nat (length (List.filter (tile_covered s) (neighbours t))) →
  (∀ n, n ∈ (flag true s r).2
        ↔ n ∈ neighbours t ∧ tile_covered s n = true ∧ tile_flagged s n = false)
  ∧ (∀ n, tile_flagged (flag true s r).1 n
          = tile_flagged s n || (bool_decide (n ∈ neighbours t) && tile_covered s n)).
Proof.
  intros Hr Hf Hc Hv. unfold flag. rewrite Hr, Hf, Hc.
  rewrite (proj2 (Z.eqb_eq _ _) Hv). simpl. split.
  - intros n. rewrite elem_of_list_to_set, elem_of_list_filter.
    rewrite andb_true_iff, negb_true_iff. tauto.
  - intros n. rewrite plant_flags_flagged.
    + f_equal. destruct (tile_covered s n) eqn:Hcn.
      * rewrite andb_true_r. apply bool_decide_ext.
        rewrite elem_of_list_filter. tauto.
      * rewrite andb_false_r. apply bool_decide_eq_false_2.
        rewrite elem_of_list_filter. intros [_ ?]. congruence.
    + intros a [_ Ha]%elem_of_list_filter. unfold tile_covered in Ha.
      destruct (s !! a); [by eexists|done].
Qed.

Lemma easy_flag_deduction_witness :
  (∀ n, n ∈ (flag true (opened {[0%nat]} board2) 0).2
        ↔ n ∈ neighbours (set_covered false
                            (set_value 1 (set_neighbours [1%nat] (new_tile 0 0))))
          ∧ tile_covered (opened {[0%nat]} board2) n = true
          ∧ tile_flagged (opened {[0%nat]} board2) n = false)
  ∧ (∀ n, tile_flagged (flag true (opened {[0%nat]} board2) 0).1 n
          = tile_flagged (opened {[0%nat]} board2) n
            || (bool_decide
                  (n ∈ neighbours (set_covered false
                                     (set_value 1 (set_neighbours [1%nat] (new_tile 0 0)))))
                && tile_covered (opened {[0%nat]} board2) n)).
Proof.
  apply (easy_flag_deduction (opened {[0%nat]} board2) 0%nat
           (set_covered false (set_value 1 (set_neighbours [1%nat] (new_tile 0 0)))));
    vm_compute; reflexivity.
Defined.

(** X21.  The flag counters through one operation.  On a wired board
    whose counters are right, every core operation leaves a wired board
    whose counters are right, unless it is an easy-flag on an open,
    unflagged tile that has a covered neighbour flagged already. *)
Theorem op_keeps_counters (o : op) (s : Board) :
  wired s → flags_consistent s →
  (∀ r t, o = OpFlag true r → s !! r = Some t → blocked t = true →
          flagged t = false → no_flag_among_covered s t) →
  ∃ s', final_state (run_op o s) = Some s' ∧ wired s' ∧ flags_consistent s'.
Proof.
  intros Hw Hc Hclean. destruct (run_op_final o s) as [s' Hrun].
  exists s'. split; [done|]. by eapply flags_consistent_run_op.
Qed.

Lemma op_keeps_counters_witness :
  ∃ s', final_state (run_op (OpFlag true 0) (opened {[0%nat]} board2)) = Some s'
        ∧ wired s' ∧ flags_consistent s'.
Proof.
  apply (op_keeps_counters (OpFlag true 0) (opened {[0%nat]} board2)).
  - apply (bool_decide_unpack _). vm_compute. exact I.
  - apply (bool_decide_unpack _). vm_compute. exact I.
  - intros r t [= <-] Ht _ _. vm_compute in Ht. injection Ht as <-.
    apply (bool_decide_unpack _). vm_compute. exact I.
Defined.

(** X22.  The flag counters through a game.  From a wired board whose
    counters are right, any session that does not use easy-flag ends on a
    wired board whose counters are right. *)
Theorem plain_session_keeps_counters (os : list op) (s : Board) :
  wired s → flags_consistent s →
  Forall (λ o, ∀ r, o ≠ OpFlag true r) os →
  ∃ s', run_ops os s = Some s' ∧ wired s' ∧ flags_consistent s'.
Proof.
  intros Hw Hc Hall. destruct (run_ops_final os s) as [s' Hrun].
  exists s'. split; [done|]. by eapply flags_consistent_run_ops.
Qed.

Lemma plain_session_keeps_counters_witness :
  ∃ s', run_ops [OpFlag false 4; OpOpen false false 0; OpDouble true 0;
                 OpDoubleHold 8; OpFlag false 4; OpFlag false 2] board3
        = Some s'
        ∧ wired s' ∧ flags_consistent s'.
Proof.
  apply (plain_session_keeps_counters _ board3).
  - apply (bool_decide_unpack _). vm_compute. exact I.
  - apply (bool_decide_unpack _). vm_compute. exact I.
  - repeat constructor; intros r; discriminate.
Defined.
